(** * ttl-cache: a shallow embedding of [ttl-cache.go] and [errs.go]

    The cache keeps two views of the same heap-allocated entries: the map
    [cache] from keys to entry pointers and the slice [ttlHK] of entry
    pointers ordered by expiration.  Both hold pointers to entries, so
    the embedding has an explicit object heap and the two views alias it. *)

From Stdlib Require Import ZArith Lia.
From stdpp Require Import gmap strings list fin_maps.

Local Open Scope Z_scope.

(** ** Data model *)

(** [type key string] *)
Abbreviation key := string (only parsing).

(** [time.Duration] is an [int64] count of nanoseconds. *)
Abbreviation Duration := Z (only parsing).

Definition Second : Duration := 1000000000.

(** [interface{}]: the payload is opaque to the cache; [inil] is Go's [nil]. *)
Inductive iface : Type :=
| inil
| iint (n : Z)
| istr (s : string).

(** Pointers to heap-allocated [cacheEntry] objects. *)
Abbreviation loc := nat (only parsing).

(** [type cacheEntry struct { value interface{}; key key; exp uint32 }] *)
Record cacheEntry : Type := mkEntry {
  e_value : iface;
  e_key : key;
  e_exp : Z
}.

(** The zero value [cacheEntry{}]. *)
Definition zeroEntry : cacheEntry :=
  {| e_value := inil; e_key := ""; e_exp := 0 |}.

#[global] Instance cacheEntry_inhabited : Inhabited cacheEntry :=
  populate zeroEntry.

(** [time.NewTicker(d)]: the cache only ever stores the ticker. *)
Record Ticker : Type := NewTicker { period : Duration }.

(** [type TTLCache struct { defaultTTL; cache; sweepTicker; ttlHK }] *)
Record TTLCache : Type := mkCache {
  defaultTTL : Duration;
  cache : gmap key loc;
  sweepTicker : Ticker;
  ttlHK : list loc
}.

(** The object heap: the entry at address [p] is [objs !!! p].  Go pointers
    never dangle; [deref] of an address that was never allocated (which no
    reachable state holds, see [consistent_reachable]) reads the zero entry. *)
Abbreviation heap := (list cacheEntry) (only parsing).

Definition deref (h : heap) (p : loc) : cacheEntry := h !!! p.

(** [&cacheEntry{...}]: a fresh object, distinct from all allocated ones. *)
Definition alloc (e : cacheEntry) (h : heap) : loc * heap :=
  (length h, h ++ [e]).

(** The program state seen by the cache's methods: the heap and the
    [TTLCache] struct behind the receiver pointer. *)
Record mem : Type := Mem { objs : heap; this : TTLCache }.

(** Field stores through a pointer: [p.value = v] and [p.exp = x]. *)
Definition set_value (v : iface) (e : cacheEntry) : cacheEntry :=
  {| e_value := v; e_key := e_key e; e_exp := e_exp e |}.

Definition set_exp (x : Z) (e : cacheEntry) : cacheEntry :=
  {| e_value := e_value e; e_key := e_key e; e_exp := x |}.

Definition with_cache (m : gmap key loc) (c : TTLCache) : TTLCache :=
  {| defaultTTL := defaultTTL c; cache := m;
     sweepTicker := sweepTicker c; ttlHK := ttlHK c |}.

Definition with_ttlHK (s : list loc) (c : TTLCache) : TTLCache :=
  {| defaultTTL := defaultTTL c; cache := cache c;
     sweepTicker := sweepTicker c; ttlHK := s |}.

(** ** Errors ([errs.go]) *)

(** The one operand each error message is formatted with. *)
Inductive fmtArg : Type :=
| ArgDuration (d : Duration)
| ArgUint (n : N)
| ArgKey (k : key).

(** An [error] built by [fmt.Errorf(format, arg)] is its message, which the
    format string and the operand determine.  The second constructor is the
    lookup failure of [newKeyNotFoundErr] below. *)
Inductive error : Type :=
| Errorf (format : string) (arg : fmtArg)
| KeyNotFound (missing : key).

Definition newInvalidSweepPeriodErr (invalidDur : Duration) : error :=
  Errorf "invalid sweep period %s; must be > 0s" (ArgDuration invalidDur).

Definition newInvalidTTLErr (invalidTTL : Duration) : error :=
  Errorf "invalid TTL %s; must be > 0s" (ArgDuration invalidTTL).

Definition newInvalidSizeErr (invalidSize : N) : error :=
  Errorf "invalid cache size %d; must be > 0" (ArgUint invalidSize).

Definition newBadUpdateRequestErr (invalidKey : key) : error :=
  Errorf "invalid key for update request %s" (ArgKey invalidKey).

(** Modelled from the spec: [newKeyNotFoundErr] is called by [Get] and by
    the tests, but [errs.go] does not define it.  The spec calls it the
    [KeyNotFound] failure of a lookup miss; like its siblings it is taken to
    carry the offending key. *)
Definition newKeyNotFoundErr (k : key) : error :=
  KeyNotFound k.

(** ** Time *)

(** A [time.Time] is modelled by its nanoseconds since the Unix epoch. *)
Abbreviation Time := Z (only parsing).

(** [t.Add(d)] *)
Definition Add (t : Time) (d : Duration) : Time := t + d.

(** [t.Unix()]: whole seconds since the epoch, rounded down. *)
Definition Unix (t : Time) : Z := t / Second.

(** The conversion [uint32(x)] of an [int64]: the low 32 bits. *)
Definition uint32 (x : Z) : Z := x mod 2 ^ 32.

(** [func getExp(ttl time.Duration) uint32], with [time.Now()] made an
    explicit argument. *)
Definition getExp (now : Time) (ttl : Duration) : Z :=
  uint32 (Unix (Add now ttl)).

(** ** The Go library routines the cache calls *)

(** [sort.Search(n, f)]: the loop [for i < j] of the library, with the
    iteration count as fuel ([n] iterations always suffice, see
    [Search_loop_fuel]). *)
Fixpoint Search_loop (fuel : nat) (f : nat → bool) (i j : nat) : nat :=
  match fuel with
  | O => i
  | S fuel' =>
      if (i <? j)%nat then
        let h := ((i + j) / 2)%nat in
        if negb (f h) then Search_loop fuel' f (h + 1)%nat j
        else Search_loop fuel' f i h
      else i
  end.

Definition Search (n : nat) (f : nat → bool) : nat :=
  Search_loop n f 0%nat n.

(** [copy(s[d:], src)]: Go copies [min(len(s) - d, len(src))] elements, and
    reads [src] as it was before the call even when the two overlap. *)
Definition copy_at {A : Type} (s : list A) (d : nat) (src : list A) : list A :=
  take d s ++ take (length s - d) src ++ drop (d + length src) s.

(** The swap function [reflectlite.Swapper] builds for a slice. *)
Definition Swap (s : list loc) (i j : nat) : list loc :=
  <[i := s !!! j]> (<[j := s !!! i]> s).

(** A [less] closure reads the slice it sorts, so it takes the slice's
    current contents. *)
Abbreviation lessFn := (list loc → nat → nat → bool) (only parsing).

(** The inner loop of the library's insertion sort,
    [for j := i; j > a && less(j, j-1); j-- { swap(j, j-1) }]. *)
Fixpoint insertionSort_inner (less : lessFn) (a j : nat) (s : list loc)
  : list loc :=
  match j with
  | O => s
  | S j' =>
      if (a <? j)%nat && less s j j'
      then insertionSort_inner less a j' (Swap s j j')
      else s
  end.

(** [insertionSort(data, a, b)]: [for i := a + 1; i < b; i++ { ... }]. *)
Definition insertionSort (less : lessFn) (a b : nat) (s : list loc)
  : list loc :=
  foldl (λ s i, insertionSort_inner less a i s) s
        (seq (a + 1) (b - (a + 1))).

(** What [sort.Slice] does to a slice of more than [insertionLimit]
    elements depends on the Go release (quicksort with a Shell pass up to
    Go 1.18, pattern-defeating quicksort since); all of them move elements
    only through [Swap], so the result is a rearrangement of the input. *)
Class SliceSorter : Type := {
  sortLong : lessFn → list loc → list loc;
  sortLong_perm : ∀ less s, sortLong less s ≡ₚ s
}.

(** Up to six elements every release of [sort.Slice] runs the plain
    insertion sort (the Shell pass of the older quicksort has gap 6 and the
    newer sort switches algorithm above 12). *)
Definition insertionLimit : nat := 6.

Definition sort_Slice `{SliceSorter} (less : lessFn) (s : list loc)
  : list loc :=
  if decide (length s ≤ insertionLimit)%nat
  then insertionSort less 0 (length s) s
  else sortLong less s.

(** The limits of the Go runtime the program runs on: the size of a
    pointer in bytes and [maxAlloc], the largest allocation the runtime
    accepts. *)
Record Platform : Type := mkPlatform {
  ptrSize : N;
  maxAlloc : N
}.

(** 64-bit Linux on amd64: 8-byte pointers and 48 bits of heap address. *)
Definition linux_amd64 : Platform :=
  {| ptrSize := 8; maxAlloc := 2 ^ 48 |}.

(** A call either returns or panics. *)
Inductive outcome (A : Type) : Type :=
| Returns (a : A)
| Panics (msg : string).

Arguments Returns {A} a.
Arguments Panics {A} msg.

(** [make([]T, 0, cap)] for a pointer type [T], that is the runtime's
    [makeslice]: it panics when the capacity in bytes overflows or exceeds
    [maxAlloc] (a [uint] that converts to a negative [int] is such a
    capacity), and returns an empty slice otherwise.  Running out of memory
    below that limit is outside the model. *)
Definition makeslice (rt : Platform) (cap : N) : outcome (list loc) :=
  if (maxAlloc rt <? ptrSize rt * cap)%N
  then Panics "makeslice: cap out of range"
  else Returns [].

(** [make(map[key]T, hint)]: the hint only sizes the buckets, and a hint
    the runtime cannot honour is ignored; the map starts empty. *)
Definition makemap (hint : N) : gmap key loc := ∅.

(** ** The cache ([ttl-cache.go]) *)

(** [func NewTTLCache(numSize uint, defaultTTL, sweepPeriod time.Duration)]
    returns a pointer to the new cache (or [nil]) and an [error], or
    panics in [make] when the runtime cannot give the index a capacity of
    [numSize].  The struct literal builds the map, then the ticker, then
    the slice; the capacity of the slice is no part of its contents. *)
Definition NewTTLCache (rt : Platform) (numSize : N)
    (defaultTTL sweepPeriod : Duration)
  : outcome (option TTLCache * option error) :=
  if (numSize <=? 0)%N then Returns (None, Some (newInvalidSizeErr numSize))
  else if defaultTTL <=? 0 * Second then
    Returns (None, Some (newInvalidTTLErr defaultTTL))
  else if sweepPeriod <=? 0 * Second then
    Returns (None, Some (newInvalidSweepPeriodErr sweepPeriod))
  else
    let store := makemap numSize in
    let ticker := NewTicker sweepPeriod in
    match makeslice rt numSize with
    | Panics msg => Panics msg
    | Returns index =>
        Returns (Some {| defaultTTL := defaultTTL;
                         cache := store;
                         sweepTicker := ticker;
                         ttlHK := index |},
                 None)
    end.

(** [func newCacheEntry(key key, value interface{}, exp uint32)], which
    returns a pointer to a new entry. *)
Definition newCacheEntry (k : key) (v : iface) (x : Z) (h : heap)
  : loc * heap :=
  alloc {| e_value := v; e_key := k; e_exp := x |} h.

(** The method [insertNewHKEntry(entry)] of the cache. *)
Definition insertNewHKEntry (entry : loc) (m : mem) : mem :=
  let h := objs m in
  let c := this m in
  let i := Search (length (ttlHK c))
             (λ i, e_exp (deref h (ttlHK c !!! i)) >=? e_exp (deref h entry)) in
  let '(blank, h1) := alloc zeroEntry h in
  let s1 := ttlHK c ++ [blank] in
  let s2 := copy_at s1 (i + 1) (drop i s1) in
  let s3 := <[i := entry]> s2 in
  Mem h1 (with_ttlHK s3 c).

(** The comparator handed to [sort.Slice] by [updateCacheEntry]:
    [func(i, j int) bool { return c.ttlHK[i].exp >= c.ttlHK[i].exp }].
    Both sides index with [i]; [j] is not used. *)
Definition update_less (h : heap) : lessFn :=
  λ s i j, e_exp (deref h (s !!! i)) >=? e_exp (deref h (s !!! i)).

(** The method [updateCacheEntry(entry) error] of the cache. *)
Definition updateCacheEntry `{SliceSorter} (entry : loc) (m : mem)
  : mem * option error :=
  let h := objs m in
  let c := this m in
  match cache c !! e_key (deref h entry) with
  | None => (m, Some (newBadUpdateRequestErr (e_key (deref h entry))))
  | Some existingValue =>
      let h1 := alter (set_value (e_value (deref h entry))) existingValue h in
      let h2 := alter (set_exp (e_exp (deref h1 entry))) existingValue h1 in
      (Mem h2 (with_ttlHK (sort_Slice (update_less h2) (ttlHK c)) c), None)
  end.

(** The method [Set(key key, value interface{}, optTTL ...time.Duration)
    error], with [time.Now()] an argument.  ([Set] is a reserved word here,
    hence the receiver's name in front.) *)
Definition TTLCache_Set `{SliceSorter} (now : Time) (k : key) (v : iface)
    (optTTL : list Duration) (m : mem) : mem * option error :=
  let c := this m in
  let ttl :=
    match optTTL with
    | d :: _ => if 0 <? d then d else defaultTTL c
    | [] => defaultTTL c
    end in
  let '(entry, h1) := newCacheEntry k v (getExp now ttl) (objs m) in
  match cache c !! k with
  | Some _ => updateCacheEntry entry (Mem h1 c)
  | None =>
      let c1 := with_cache (<[e_key (deref h1 entry) := entry]> (cache c)) c in
      (insertNewHKEntry entry (Mem h1 c1), None)
  end.

(** The method [Get(key key) (interface{}, error)]. *)
Definition Get (k : key) (m : mem) : mem * (iface * option error) :=
  match cache (this m) !! k with
  | None => (m, (inil, Some (newKeyNotFoundErr k)))
  | Some entry => (m, (e_value (deref (objs m) entry), None))
  end.

(** The exported methods of the cache: [Set] and [Get] are all there is. *)
Inductive method : Type :=
| CallSet (now : Time) (k : key) (v : iface) (optTTL : list Duration)
| CallGet (k : key).

Definition call `{SliceSorter} (op : method) (m : mem) : mem :=
  match op with
  | CallSet now k v optTTL => (TTLCache_Set now k v optTTL m).1
  | CallGet k => (Get k m).1
  end.

(** The states a program can drive a cache into: a successful
    [NewTTLCache] on some platform, then any calls of [Set] and [Get]. *)
Inductive reachable `{SliceSorter} : mem → Prop :=
| reachable_new rt numSize ttl sweepPeriod c :
    NewTTLCache rt numSize ttl sweepPeriod = Returns (Some c, None) →
    reachable (Mem [] c)
| reachable_call op m :
    reachable m → reachable (call op m).

(** ** Observations used by the statements *)

(** The expirations read through the index, front to back. *)
Definition index_exps (m : mem) : list Z :=
  (λ p, e_exp (deref (objs m) p)) <$> ttlHK (this m).

(** The keys read through the index, front to back. *)
Definition index_keys (m : mem) : list key :=
  (λ p, e_key (deref (objs m) p)) <$> ttlHK (this m).

(** Non-decreasing, as a boolean check over adjacent pairs. *)
Fixpoint ascending (l : list Z) : bool :=
  match l with
  | x :: (y :: _) as tl => (x <=? y) && ascending tl
  | _ => true
  end.

(** The pointers the store owns. *)
Definition store_refs (c : TTLCache) : list loc :=
  (map_to_list (cache c)).*2.

(** Go's memory safety: a pointer held by the store or by the index
    refers to an allocated entry. *)
Definition allocated (m : mem) : Prop :=
  (∀ k p, cache (this m) !! k = Some p → (p < length (objs m))%nat) ∧
  (∀ p, p ∈ ttlHK (this m) → (p < length (objs m))%nat).

(** The data-model invariant: the entry stored under a key carries that
    key, and the index references exactly the entries the store owns. *)
Definition consistent (m : mem) : Prop :=
  (∀ k p, cache (this m) !! k = Some p →
      (p < length (objs m))%nat ∧ e_key (deref (objs m) p) = k) ∧
  ttlHK (this m) ≡ₚ store_refs (this m).

(** The TTL [Set] uses: the first optional argument when it is positive,
    the cache's default otherwise. *)
Definition effective_ttl (c : TTLCache) (optTTL : list Duration) : Duration :=
  match optTTL with
  | d :: _ => if 0 <? d then d else defaultTTL c
  | [] => defaultTTL c
  end.

(** Where a reference [p] sits relative to the other references with the
    same expiration: after all of them, or before all of them. *)
Definition after_all_ties (m : mem) (p : loc) : Prop :=
  ∀ i j q,
    ttlHK (this m) !! i = Some p → ttlHK (this m) !! j = Some q → q ≠ p →
    e_exp (deref (objs m) q) = e_exp (deref (objs m) p) → (j < i)%nat.

Definition before_all_ties (m : mem) (p : loc) : Prop :=
  ∀ i j q,
    ttlHK (this m) !! i = Some p → ttlHK (this m) !! j = Some q → q ≠ p →
    e_exp (deref (objs m) q) = e_exp (deref (objs m) p) → (i < j)%nat.

(** What a sweep at Unix time [now] would have to do to a state [m]: the
    entries due at [now] are gone from the store and from the index. *)
Definition removes_expired (now : Z) (m m' : mem) : Prop :=
  ∀ k p, cache (this m) !! k = Some p → e_exp (deref (objs m) p) <= now →
    cache (this m') !! k = None ∧ p ∉ ttlHK (this m').

(** ** Auxiliary definitions *)

(** The position [insertNewHKEntry] picks by binary search. *)
Definition slot (h : heap) (s : list loc) (entry : loc) : nat :=
  Search (length s)
    (λ i, e_exp (deref h (s !!! i)) >=? e_exp (deref h entry)).

Definition fresh_entry (now : Time) (k : key) (v : iface)
    (optTTL : list Duration) (m : mem) : cacheEntry :=
  {| e_value := v; e_key := k;
     e_exp := getExp now (effective_ttl (this m) optTTL) |}.

(** A sequence of calls, applied in order. *)
Definition run `{SliceSorter} (ops : list method) (m : mem) : mem :=
  foldl (λ m op, call op m) m ops.

(** The cache of the tests: [NewTTLCache(10, 30s, 5s)]. *)
Definition fresh : mem :=
  Mem [] (mkCache (30 * Second) ∅ (NewTicker (5 * Second)) []).

(** One entry, set at time 0 with the default TTL (expires at 30). *)
Definition state_a `{SliceSorter} : mem :=
  run [CallSet 0 "a" (istr "x") []] fresh.

(** Three entries with expirations 10, 20 and 30. *)
Definition state_abc `{SliceSorter} : mem :=
  run [CallSet 0 "a" (istr "x") [10 * Second];
       CallSet 0 "b" (istr "y") [20 * Second];
       CallSet 0 "c" (istr "z") [30 * Second]] fresh.

(** Ten seconds before the 32-bit clock wraps (7 February 2106). *)
Definition near_wrap : Time := (2 ^ 32 - 10) * Second.

(** The keys a sequence of calls sets, in call order. *)
Definition set_keys (ops : list method) : list key :=
  omap (λ op, match op with
              | CallSet _ k _ _ => Some k
              | CallGet _ => None
              end) ops.

(** The value the most recent [Set(k, _)] of a sequence of calls wrote. *)
Definition last_set (k : key) (ops : list method) : option iface :=
  foldl (λ acc op, match op with
                   | CallSet _ k' v _ => if decide (k' = k) then Some v else acc
                   | CallGet _ => acc
                   end) None ops.

(** Every expiration the store holds came out of [getExp]. *)
Definition exps_in_range (m : mem) : Prop :=
  ∀ k p, cache (this m) !! k = Some p →
         0 <= e_exp (deref (objs m) p) < 2 ^ 32.

(** ** Facts about the library routines *)

Lemma Search_loop_bounds fuel f i j :
  (i ≤ j)%nat →
  (i ≤ Search_loop fuel f i j ≤ j)%nat.
Proof.
  revert i j. induction fuel as [|fuel IH]; intros i j Hij; cbn [Search_loop]; [lia|].
  destruct (Nat.ltb_spec i j) as [Hlt|Hge]; [|lia].
  assert (Hh := Nat.Div0.div_lt_upper_bound (i + j) 2 j).
  assert (Hl := Nat.div_le_lower_bound (i + j) 2 i).
  destruct (f _); cbn [negb].
  - specialize (IH i ((i + j) / 2)%nat). lia.
  - specialize (IH ((i + j) / 2 + 1)%nat j). lia.
Qed.

Lemma Search_bounds n f : (Search n f ≤ n)%nat.
Proof. unfold Search. pose proof (Search_loop_bounds n f 0 n). lia. Qed.

(** The loop is over within [j - i] iterations: more fuel changes nothing. *)
Lemma Search_loop_fuel fuel fuel' f i j :
  (j - i ≤ fuel)%nat → (j - i ≤ fuel')%nat →
  Search_loop fuel f i j = Search_loop fuel' f i j.
Proof.
  revert fuel' i j. induction fuel as [|fuel IH]; intros fuel' i j H1 H2.
  - destruct fuel'; cbn [Search_loop]; [done|].
    destruct (Nat.ltb_spec i j); [lia|done].
  - destruct fuel' as [|fuel']; cbn [Search_loop].
    + destruct (Nat.ltb_spec i j); [lia|done].
    + destruct (Nat.ltb_spec i j) as [Hlt|Hge]; [|done].
      assert (Hh := Nat.Div0.div_lt_upper_bound (i + j) 2 j).
      assert (Hl := Nat.div_le_lower_bound (i + j) 2 i).
      destruct (f _); cbn [negb]; apply IH; lia.
Qed.

(** On a predicate that is monotone below [n], [Search] returns the least
    index that satisfies it ([n] when there is none). *)
Lemma Search_loop_least n fuel f i j :
  (∀ x y, (x ≤ y < n)%nat → f x = true → f y = true) →
  (j - i ≤ fuel)%nat → (i ≤ j ≤ n)%nat →
  (∀ x, (x < i)%nat → f x = false) →
  (∀ x, (j ≤ x < n)%nat → f x = true) →
  (∀ x, (x < Search_loop fuel f i j)%nat → f x = false) ∧
  (∀ x, (Search_loop fuel f i j ≤ x < n)%nat → f x = true).
Proof.
  intros Hmono. revert i j.
  induction fuel as [|fuel IH]; intros i j Hfuel Hij Hlo Hhi; cbn [Search_loop].
  - split; [done|]. intros x Hx. apply Hhi. lia.
  - destruct (Nat.ltb_spec i j) as [Hlt|Hge].
    2:{ split; [done|]. intros x Hx. apply Hhi. lia. }
    assert (Hh := Nat.Div0.div_lt_upper_bound (i + j) 2 j).
    assert (Hl := Nat.div_le_lower_bound (i + j) 2 i).
    destruct (f ((i + j) / 2)%nat) eqn:Hf; cbn [negb].
    + apply IH; [lia|lia|done|].
      intros x Hx. apply (Hmono ((i + j) / 2)%nat); [lia|done].
    + apply IH; [lia|lia| |done].
      intros x Hx. destruct (f x) eqn:Hfx; [|done].
      rewrite (Hmono x ((i + j) / 2)%nat) in Hf; [done|lia|done].
Qed.

Lemma Search_least n f :
  (∀ x y, (x ≤ y < n)%nat → f x = true → f y = true) →
  (∀ x, (x < Search n f)%nat → f x = false) ∧
  (∀ x, (Search n f ≤ x < n)%nat → f x = true).
Proof.
  intros Hmono. unfold Search.
  apply (Search_loop_least n); [done|lia|lia|lia|lia].
Qed.

(** [append], [copy] and the store at [i] together open a slot at [i]. *)
Lemma open_slot {A : Type} (s : list A) (i : nat) (blank e : A) :
  (i ≤ length s)%nat →
  <[i := e]> (copy_at (s ++ [blank]) (i + 1) (drop i (s ++ [blank])))
  = take i s ++ e :: drop i s.
Proof.
  intros Hi. unfold copy_at.
  rewrite (drop_ge (s ++ [blank]) (i + 1 + _)).
  2:{ rewrite length_drop, !length_app. simpl. lia. }
  rewrite app_nil_r, length_app, drop_app_le by done.
  replace (length s + length [blank] - (i + 1))%nat
    with (length (drop i s)) by (rewrite length_drop; simpl; lia).
  rewrite take_app_length.
  destruct (decide (i = length s)) as [->|Hne].
  - rewrite take_app_ge by lia.
    replace (length s + 1 - length s)%nat with 1%nat by lia.
    rewrite drop_all, app_nil_r, firstn_all. simpl.
    rewrite insert_app_r_alt by lia.
    by replace (length s - length s)%nat with 0%nat by lia.
  - rewrite take_app_le by lia.
    replace (i + 1)%nat with (S i) by lia.
    destruct (lookup_lt_is_Some_2 s i) as [x Hx]; [lia|].
    rewrite (take_S_r s i x Hx), <- app_assoc. simpl.
    rewrite insert_app_r_alt by (rewrite length_take; lia).
    rewrite length_take.
    by replace (i - i `min` length s)%nat with 0%nat by lia.
Qed.

(** Swapping neighbours, written out on the list. *)
Lemma Swap_adjacent (l1 l2 : list loc) (x y : loc) :
  Swap (l1 ++ x :: y :: l2) (S (length l1)) (length l1)
  = l1 ++ y :: x :: l2.
Proof.
  unfold Swap.
  rewrite !list_lookup_total_alt.
  rewrite (lookup_app_r _ _ (S (length l1))) by lia.
  rewrite (lookup_app_r _ _ (length l1)) by lia.
  replace (S (length l1) - length l1)%nat with 1%nat by lia.
  replace (length l1 - length l1)%nat with 0%nat by lia.
  simpl.
  rewrite insert_app_r_alt by lia.
  replace (length l1 - length l1)%nat with 0%nat by lia. simpl.
  rewrite insert_app_r_alt by lia.
  by replace (S (length l1) - length l1)%nat with 1%nat by lia.
Qed.

Lemma Swap_adjacent_perm (s : list loc) (j : nat) :
  (S j < length s)%nat → Swap s (S j) j ≡ₚ s.
Proof.
  intros Hj.
  destruct (lookup_lt_is_Some_2 s j) as [x Hx]; [lia|].
  destruct (lookup_lt_is_Some_2 s (S j)) as [y Hy]; [lia|].
  assert (E : s = take j s ++ x :: y :: drop (S (S j)) s).
  { by rewrite <- (drop_S s y (S j)), take_drop_middle. }
  assert (Hl : length (take j s) = j) by (rewrite length_take; lia).
  revert E Hl. generalize (take j s) (drop (S (S j)) s). intros l1 l2 E Hl.
  clear Hx Hy Hj. subst s j.
  rewrite Swap_adjacent. apply Permutation_app_head, perm_swap.
Qed.

Lemma insertionSort_inner_perm less a j s :
  (j < length s)%nat → insertionSort_inner less a j s ≡ₚ s.
Proof.
  revert s. induction j as [|j IH]; intros s Hj; simpl; [done|].
  destruct (_ && _); [|done].
  rewrite IH.
  - by apply Swap_adjacent_perm.
  - rewrite (Permutation_length (Swap_adjacent_perm s j Hj)). lia.
Qed.

Lemma insertionSort_perm less a b s :
  (b ≤ length s)%nat → insertionSort less a b s ≡ₚ s.
Proof.
  unfold insertionSort. intros Hb.
  assert (Hall : Forall (λ i, (i < length s)%nat) (seq (a + 1) (b - (a + 1)))).
  { apply Forall_forall. intros i Hi%list_elem_of_In%in_seq. lia. }
  revert Hall. generalize (seq (a + 1) (b - (a + 1))).
  intros idx. revert s Hb.
  induction idx as [|i idx IH]; intros s Hb Hall; simpl; [done|].
  inversion Hall as [|? ? Hi Hrest]; subst.
  pose proof (insertionSort_inner_perm less a i s Hi) as Hp.
  rewrite IH; [done| |].
  - rewrite (Permutation_length Hp). done.
  - rewrite (Permutation_length Hp). done.
Qed.

Lemma sort_Slice_perm `{SliceSorter} less s : sort_Slice less s ≡ₚ s.
Proof.
  unfold sort_Slice. case_decide.
  - by apply insertionSort_perm.
  - apply sortLong_perm.
Qed.

(** A sorter that keeps to insertion sort on long slices as well; the
    concrete runs below are evaluated with it. *)
Definition insertion_sorter : SliceSorter :=
  {| sortLong := λ less s, insertionSort less 0 (length s) s;
     sortLong_perm := λ less s,
       insertionSort_perm less 0 (length s) s (le_n (length s)) |}.

(** ** Heap reads after an allocation or a field store *)

Lemma deref_fresh (h h' : heap) (e : cacheEntry) :
  deref (h ++ e :: h') (length h) = e.
Proof. unfold deref. apply list_lookup_total_middle. done. Qed.

Lemma deref_app_l (h h' : heap) (p : loc) :
  (p < length h)%nat → deref (h ++ h') p = deref h p.
Proof. intros Hp. unfold deref. by apply lookup_total_app_l. Qed.

Lemma deref_alter_eq (f : cacheEntry → cacheEntry) (h : heap) (p : loc) :
  (p < length h)%nat → deref (alter f p h) p = f (deref h p).
Proof.
  intros Hp. unfold deref.
  destruct (lookup_lt_is_Some_2 h p Hp) as [e He].
  rewrite !list_lookup_total_alt, list_lookup_alter_eq, He. done.
Qed.

Lemma deref_alter_ne (f : cacheEntry → cacheEntry) (h : heap) (p q : loc) :
  p ≠ q → deref (alter f p h) q = deref h q.
Proof.
  intros Hpq. unfold deref.
  by rewrite !list_lookup_total_alt, list_lookup_alter_ne.
Qed.

(** A field store that leaves a field [g] alone leaves it alone in every
    object, allocated or not. *)
Lemma deref_alter_field {B : Type} (g : cacheEntry → B)
    (f : cacheEntry → cacheEntry) (h : heap) (p q : loc) :
  (∀ e, g (f e) = g e) → g (deref (alter f p h) q) = g (deref h q).
Proof.
  intros Hg. destruct (decide (p = q)) as [->|Hpq].
  - unfold deref. rewrite !list_lookup_total_alt, list_lookup_alter_eq.
    destruct (h !! q); simpl; [apply Hg|done].
  - by rewrite deref_alter_ne.
Qed.

(** ** The two paths of [Set], written out *)

Lemma slot_le h s entry : (slot h s entry ≤ length s)%nat.
Proof. apply Search_bounds. Qed.

Lemma insertNewHKEntry_eq entry m :
  insertNewHKEntry entry m
  = Mem (objs m ++ [zeroEntry])
        (with_ttlHK
           (take (slot (objs m) (ttlHK (this m)) entry) (ttlHK (this m))
            ++ entry :: drop (slot (objs m) (ttlHK (this m)) entry)
                             (ttlHK (this m)))
           (this m)).
Proof.
  unfold insertNewHKEntry, alloc.
  rewrite open_slot by apply slot_le. done.
Qed.

Lemma Set_new `{SliceSorter} now k v optTTL m :
  cache (this m) !! k = None →
  TTLCache_Set now k v optTTL m
  = (let h1 := objs m ++ [fresh_entry now k v optTTL m] in
     let p := length (objs m) in
     let i := slot h1 (ttlHK (this m)) p in
     Mem (h1 ++ [zeroEntry])
         (with_ttlHK (take i (ttlHK (this m)) ++ p :: drop i (ttlHK (this m)))
            (with_cache (<[k := p]> (cache (this m))) (this m))),
     None).
Proof.
  intros Hk. unfold TTLCache_Set, newCacheEntry, alloc.
  fold (effective_ttl (this m) optTTL). rewrite Hk.
  rewrite insertNewHKEntry_eq. simpl.
  rewrite deref_fresh. done.
Qed.

Lemma Set_update `{SliceSorter} now k v optTTL m p :
  cache (this m) !! k = Some p →
  TTLCache_Set now k v optTTL m
  = (let x := getExp now (effective_ttl (this m) optTTL) in
     let h1 := objs m ++ [fresh_entry now k v optTTL m] in
     let h2 := alter (set_exp x) p (alter (set_value v) p h1) in
     Mem h2 (with_ttlHK (sort_Slice (update_less h2) (ttlHK (this m)))
               (this m)),
     None).
Proof.
  intros Hk. unfold TTLCache_Set, newCacheEntry, alloc.
  fold (effective_ttl (this m) optTTL). rewrite Hk.
  unfold updateCacheEntry. simpl.
  rewrite deref_fresh. simpl. rewrite Hk.
  rewrite (deref_alter_field e_exp) by done.
  rewrite deref_fresh. done.
Qed.

(** [Set] never fails. *)
Lemma Set_no_error `{SliceSorter} now k v optTTL m :
  (TTLCache_Set now k v optTTL m).2 = None.
Proof.
  destruct (cache (this m) !! k) as [p|] eqn:Hk.
  - by rewrite (Set_update _ _ _ _ _ p).
  - by rewrite Set_new.
Qed.

(** After [Set(k, v)] the store binds [k] to an entry that holds [v] and
    the expiration computed by [getExp]. *)
Lemma Set_lookup `{SliceSorter} now k v optTTL m :
  allocated m →
  ∃ p, cache (this (TTLCache_Set now k v optTTL m).1) !! k = Some p ∧
       e_value (deref (objs (TTLCache_Set now k v optTTL m).1) p) = v ∧
       e_exp (deref (objs (TTLCache_Set now k v optTTL m).1) p)
       = getExp now (effective_ttl (this m) optTTL).
Proof.
  intros [Hstore _].
  destruct (cache (this m) !! k) as [p|] eqn:Hk.
  - rewrite (Set_update _ _ _ _ _ p Hk). simpl. exists p.
    specialize (Hstore k p Hk).
    split; [done|].
    rewrite deref_alter_eq by (rewrite length_alter, length_app; lia).
    rewrite deref_alter_eq by (rewrite length_app; lia). done.
  - rewrite (Set_new _ _ _ _ _ Hk). simpl. exists (length (objs m)).
    rewrite lookup_insert_eq. split; [done|].
    rewrite <- app_assoc. simpl. rewrite deref_fresh. done.
Qed.

(** ** The invariant *)

Lemma elem_of_store_refs (c : TTLCache) (p : loc) :
  p ∈ store_refs c ↔ ∃ k, cache c !! k = Some p.
Proof.
  unfold store_refs. rewrite list_elem_of_fmap. split.
  - intros [[k q] [-> Hkq%elem_of_map_to_list]]. by exists k.
  - intros [k Hk]. exists (k, p). by rewrite elem_of_map_to_list.
Qed.

Lemma consistent_allocated m : consistent m → allocated m.
Proof.
  intros [Hstore Hidx]. split.
  - intros k p Hk. by apply (Hstore k p).
  - intros p Hp. rewrite Hidx in Hp.
    apply elem_of_store_refs in Hp as [k Hk]. by apply (Hstore k p).
Qed.

Lemma take_cons_drop_perm {A : Type} (l : list A) (i : nat) (x : A) :
  take i l ++ x :: drop i l ≡ₚ x :: l.
Proof.
  rewrite <- Permutation_middle. by rewrite take_drop.
Qed.

Lemma consistent_Set `{SliceSorter} now k v optTTL m :
  consistent m → consistent (TTLCache_Set now k v optTTL m).1.
Proof.
  intros [Hstore Hidx].
  destruct (cache (this m) !! k) as [p|] eqn:Hk.
  - rewrite (Set_update _ _ _ _ _ p Hk). split; simpl.
    + intros k' p' Hk'. destruct (Hstore k' p' Hk') as [Hp' Hkey].
      rewrite !length_alter, length_app. split; [lia|].
      rewrite !(deref_alter_field e_key) by done.
      by rewrite deref_app_l.
    + unfold store_refs. simpl. by rewrite sort_Slice_perm.
  - rewrite (Set_new _ _ _ _ _ Hk). split; simpl.
    + intros k' p' Hk'. rewrite !length_app. simpl.
      rewrite <- app_assoc. simpl.
      destruct (decide (k = k')) as [<-|Hne].
      * rewrite lookup_insert_eq in Hk'. injection Hk' as <-.
        split; [lia|]. by rewrite deref_fresh.
      * rewrite lookup_insert_ne in Hk' by done.
        destruct (Hstore k' p' Hk') as [Hp' Hkey].
        split; [lia|]. by rewrite deref_app_l.
    + etrans; [apply take_cons_drop_perm|].
      unfold store_refs. simpl.
      rewrite map_to_list_insert by done. simpl.
      by constructor.
Qed.

Lemma consistent_call `{SliceSorter} op m :
  consistent m → consistent (call op m).
Proof.
  destruct op as [now k v optTTL|k]; simpl.
  - apply consistent_Set.
  - unfold Get. by destruct (cache (this m) !! k).
Qed.

Lemma consistent_reachable `{SliceSorter} m : reachable m → consistent m.
Proof.
  induction 1 as [rt numSize ttl sweepPeriod c Hnew|op m _ IH].
  - unfold NewTTLCache, makeslice, makemap in Hnew.
    repeat case_match; simplify_eq.
    split; simpl; [intros k p Hk; by rewrite lookup_empty in Hk|].
    unfold store_refs. simpl. by rewrite map_to_list_empty.
  - by apply consistent_call.
Qed.

Lemma filter_none {A : Type} (P : A → Prop) `{∀ x, Decision (P x)}
    (l : list A) :
  Forall (λ x, ¬ P x) l → filter P l = [].
Proof.
  induction 1 as [|x l Hx _ IH]; [done|].
  by rewrite filter_cons_False.
Qed.

(** Under the invariant the index holds exactly one reference to an entry
    with key [k], the one the store binds [k] to. *)
Lemma consistent_unique_ref m k p :
  consistent m → cache (this m) !! k = Some p →
  filter (λ q, e_key (deref (objs m) q) = k) (ttlHK (this m)) = [p].
Proof.
  intros [Hstore Hidx] Hk.
  apply Permutation_singleton_r. rewrite Hidx.
  unfold store_refs.
  rewrite <- (insert_delete_id (cache (this m)) k p Hk).
  rewrite map_to_list_insert by apply lookup_delete_eq.
  rewrite fmap_cons, filter_cons_True.
  2:{ simpl. by destruct (Hstore k p Hk). }
  simpl. constructor.
  rewrite filter_none; [done|].
  apply Forall_forall. intros q Hq Hkey.
  apply list_elem_of_fmap in Hq as [[k' q'] [-> Hq%elem_of_map_to_list]].
  simpl in Hkey.
  destruct (decide (k = k')) as [<-|Hne].
  - by rewrite lookup_delete_eq in Hq.
  - rewrite lookup_delete_ne in Hq by done.
    destruct (Hstore k' q' Hq) as [_ Hkey']. congruence.
Qed.

Lemma consistent_unique_entry m k p :
  consistent m → cache (this m) !! k = Some p →
  filter (λ kq, e_key (deref (objs m) kq.2) = k) (map_to_list (cache (this m)))
  = [(k, p)].
Proof.
  intros [Hstore _] Hk.
  apply Permutation_singleton_r.
  rewrite <- (insert_delete_id (cache (this m)) k p Hk).
  rewrite map_to_list_insert by apply lookup_delete_eq.
  rewrite filter_cons_True.
  2:{ simpl. by destruct (Hstore k p Hk). }
  constructor.
  rewrite filter_none; [done|].
  apply Forall_forall. intros [k' q'] Hq%elem_of_map_to_list Hkey.
  simpl in Hkey.
  destruct (decide (k = k')) as [<-|Hne].
  - by rewrite lookup_delete_eq in Hq.
  - rewrite lookup_delete_ne in Hq by done.
    destruct (Hstore k' q' Hq) as [_ Hkey']. congruence.
Qed.

(** [Set] and [Get] keep every binding of the store and every reference of
    the index. *)
Lemma call_keeps_store `{SliceSorter} op m k p :
  cache (this m) !! k = Some p → cache (this (call op m)) !! k = Some p.
Proof.
  intros Hk. destruct op as [now k' v optTTL|k']; simpl.
  - destruct (cache (this m) !! k') as [p'|] eqn:Hk'.
    + by rewrite (Set_update _ _ _ _ _ p' Hk').
    + rewrite (Set_new _ _ _ _ _ Hk'). simpl.
      rewrite lookup_insert_ne; [done|]. intros ->. congruence.
  - unfold Get. by destruct (cache (this m) !! k').
Qed.

Lemma call_keeps_index `{SliceSorter} op m :
  ttlHK (this m) ⊆+ ttlHK (this (call op m)).
Proof.
  destruct op as [now k' v optTTL|k']; simpl.
  - destruct (cache (this m) !! k') as [p'|] eqn:Hk'.
    + rewrite (Set_update _ _ _ _ _ p' Hk'). simpl.
      by rewrite sort_Slice_perm.
    + rewrite (Set_new _ _ _ _ _ Hk'). simpl.
      rewrite take_cons_drop_perm. by apply submseteq_cons.
  - unfold Get. by destruct (cache (this m) !! k').
Qed.

(** ** Sorted indexes *)

Lemma elem_of_take_l {A : Type} (l : list A) (i : nat) (x : A) :
  x ∈ take i l → x ∈ l.
Proof.
  intros Hx. rewrite <- (take_drop i l). apply elem_of_app. by left.
Qed.

Lemma elem_of_drop_l {A : Type} (l : list A) (i : nat) (x : A) :
  x ∈ drop i l → x ∈ l.
Proof.
  intros Hx. rewrite <- (take_drop i l). apply elem_of_app. by right.
Qed.

Lemma ascending_cons x l :
  ascending (x :: l) = true → Forall (λ y, x <= y) l ∧ ascending l = true.
Proof.
  revert x. induction l as [|y l IH]; intros x Hasc; [by split|].
  cbn [ascending] in Hasc. apply andb_true_iff in Hasc as [Hxy Hrest].
  apply Z.leb_le in Hxy. destruct (IH y Hrest) as [Hall Hl].
  split; [|done]. constructor; [done|].
  eapply Forall_impl; [exact Hall|]. simpl. lia.
Qed.

Lemma ascending_lookup l i j a b :
  ascending l = true → l !! i = Some a → l !! j = Some b → (i ≤ j)%nat →
  a <= b.
Proof.
  revert i j. induction l as [|x l IH]; intros i j Hasc Hi Hj Hij; [done|].
  destruct (ascending_cons x l Hasc) as [Hall Hl].
  destruct i as [|i], j as [|j]; simpl in *; simplify_eq.
  - lia.
  - rewrite Forall_forall in Hall. apply Hall.
    by apply list_elem_of_lookup_2 in Hj.
  - lia.
  - apply (IH i j); [done..|lia].
Qed.

(** On a sorted index whose references are allocated, the binary search of
    [insertNewHKEntry] splits the index into the references that expire
    strictly before the new entry and those that expire no earlier. *)
Lemma slot_splits (h : heap) (s : list loc) (e : cacheEntry) :
  (∀ q, q ∈ s → (q < length h)%nat) →
  ascending ((λ q, e_exp (deref h q)) <$> s) = true →
  Forall (λ q, e_exp (deref h q) < e_exp e)
         (take (slot (h ++ [e]) s (length h)) s) ∧
  Forall (λ q, e_exp e <= e_exp (deref h q))
         (drop (slot (h ++ [e]) s (length h)) s).
Proof.
  intros Halloc Hasc. unfold slot.
  set (f := λ i : nat,
         e_exp (deref (h ++ [e]) (s !!! i)) >=? e_exp (deref (h ++ [e]) (length h))).
  assert (Hf : ∀ i q, s !! i = Some q → f i = (e_exp (deref h q) >=? e_exp e)).
  { intros i q Hq. unfold f.
    rewrite (list_lookup_total_correct _ _ _ Hq), deref_fresh.
    rewrite deref_app_l; [done|].
    apply Halloc. by apply list_elem_of_lookup_2 in Hq. }
  destruct (Search_least (length s) f) as [Hlo Hhi].
  { intros x y Hxy Hx.
    destruct (lookup_lt_is_Some_2 s x) as [qx Hqx]; [lia|].
    destruct (lookup_lt_is_Some_2 s y) as [qy Hqy]; [lia|].
    rewrite (Hf x qx Hqx) in Hx. rewrite (Hf y qy Hqy).
    apply Z.geb_le in Hx. apply Z.geb_le.
    assert (e_exp (deref h qx) <= e_exp (deref h qy)); [|lia].
    eapply (ascending_lookup _ x y); [exact Hasc| | |lia].
    - by rewrite list_lookup_fmap, Hqx.
    - by rewrite list_lookup_fmap, Hqy. }
  pose proof (Search_bounds (length s) f) as Hle.
  split; apply Forall_lookup; intros i q Hq.
  - apply lookup_take_Some in Hq as [Hq Hi].
    specialize (Hlo i Hi). rewrite (Hf i q Hq) in Hlo.
    destruct (Z.geb_spec (e_exp (deref h q)) (e_exp e)); [done|lia].
  - rewrite lookup_drop in Hq.
    assert (Hlt : (Search (length s) f + i < length s)%nat).
    { by apply lookup_lt_Some in Hq. }
    specialize (Hhi _ (conj (Nat.le_add_r _ _) Hlt)).
    rewrite (Hf _ q Hq) in Hhi. apply Z.geb_le in Hhi. lia.
Qed.

(** ** What the comparator of [updateCacheEntry] does to the index *)

(** The comparator is true of every pair of positions. *)
Lemma update_less_true h s i j : update_less h s i j = true.
Proof. unfold update_less. apply Z.geb_le. lia. Qed.

(** Under a comparator that is always true the inner loop carries the
    element at [j] all the way to the front. *)
Lemma insertionSort_inner_front (less : list loc → nat → nat → bool) j s :
  (∀ s i j, less s i j = true) → (j < length s)%nat →
  insertionSort_inner less 0 j s = s !!! j :: take j s ++ drop (S j) s.
Proof.
  intros Hless. revert s. induction j as [|j IH]; intros s Hj.
  - destruct s as [|x s]; [simpl in Hj; lia|]. simpl. by rewrite drop_0.
  - cbn [insertionSort_inner]. rewrite Hless. cbn [andb Nat.ltb Nat.leb].
    destruct (lookup_lt_is_Some_2 s j) as [x Hx]; [lia|].
    destruct (lookup_lt_is_Some_2 s (S j)) as [y Hy]; [lia|].
    assert (E : s = take j s ++ x :: y :: drop (S (S j)) s).
    { by rewrite <- (drop_S s y (S j)), take_drop_middle. }
    assert (Hl : length (take j s) = j) by (rewrite length_take; lia).
    rewrite (list_lookup_total_correct _ _ _ Hy).
    rewrite (take_S_r s j x Hx).
    revert E Hl. generalize (take j s) (drop (S (S j)) s). intros l1 l2 E Hl.
    clear Hx Hy. subst s. subst j.
    rewrite Swap_adjacent, IH by (rewrite !length_app; simpl; lia).
    rewrite list_lookup_total_middle by done.
    rewrite take_app_length.
    rewrite drop_app_ge by lia.
    replace (S (length l1) - length l1)%nat with 1%nat by lia.
    by rewrite <- app_assoc.
Qed.

Lemma insertionSort_reverse_prefix (less : list loc → nat → nat → bool) k s :
  (∀ s i j, less s i j = true) → (S k ≤ length s)%nat →
  foldl (λ s i, insertionSort_inner less 0 i s) s (seq 1 k)
  = reverse (take (S k) s) ++ drop (S k) s.
Proof.
  intros Hless. induction k as [|k IH]; intros Hk.
  - destruct s as [|x s]; [simpl in Hk; lia|]. simpl. by rewrite drop_0.
  - rewrite seq_S, foldl_app, IH by lia. cbn [foldl Nat.add].
    destruct (lookup_lt_is_Some_2 s (S k)) as [y Hy]; [lia|].
    assert (Hr : length (reverse (take (S k) s)) = S k).
    { rewrite length_reverse, length_take. lia. }
    rewrite (insertionSort_inner_front less _ _ Hless)
      by (rewrite length_app, Hr, length_drop; lia).
    rewrite (drop_S s y (S k) Hy), (take_S_r s (S k) y Hy), reverse_snoc.
    revert Hr. generalize (reverse (take (S k) s)) (drop (S (S k)) s).
    intros r d Hr. rewrite <- Hr.
    rewrite list_lookup_total_middle by done.
    rewrite take_app_length, drop_app_ge by lia.
    replace (S (length r) - length r)%nat with 1%nat by lia.
    done.
Qed.

(** So the insertion sort returns the slice reversed. *)
Lemma insertionSort_reverse (less : list loc → nat → nat → bool) s :
  (∀ s i j, less s i j = true) →
  insertionSort less 0 (length s) s = reverse s.
Proof.
  intros Hless. unfold insertionSort. cbn [Nat.add].
  destruct s as [|x s]; [done|].
  cbn [length]. replace (S (length s) - 1)%nat with (length s) by lia.
  rewrite insertionSort_reverse_prefix by (simpl; done).
  rewrite take_ge, drop_ge by (simpl; lia). by rewrite app_nil_r.
Qed.

(** [Set] on a key that is present reverses an index of up to six
    references, whatever the expirations. *)
Lemma Set_update_reverses `{SliceSorter} now k v optTTL m p :
  cache (this m) !! k = Some p →
  (length (ttlHK (this m)) ≤ insertionLimit)%nat →
  ttlHK (this (TTLCache_Set now k v optTTL m).1) = reverse (ttlHK (this m)).
Proof.
  intros Hk Hlen. rewrite (Set_update _ _ _ _ _ p Hk). simpl.
  unfold sort_Slice. rewrite decide_True by done.
  apply insertionSort_reverse. intros. apply update_less_true.
Qed.

(** [Set] on a key that is present writes the new value and expiration
    into the entry the store already binds the key to, and touches no other
    allocated entry, no binding of the store, and no reference of the
    index beyond its position. *)
Lemma Set_update_in_place `{SliceSorter} now k v optTTL m p :
  cache (this m) !! k = Some p → (p < length (objs m))%nat →
  cache (this (TTLCache_Set now k v optTTL m).1) = cache (this m) ∧
  deref (objs (TTLCache_Set now k v optTTL m).1) p
  = {| e_value := v; e_key := e_key (deref (objs m) p);
       e_exp := getExp now (effective_ttl (this m) optTTL) |} ∧
  (∀ q, (q < length (objs m))%nat → q ≠ p →
        deref (objs (TTLCache_Set now k v optTTL m).1) q = deref (objs m) q) ∧
  ttlHK (this (TTLCache_Set now k v optTTL m).1) ≡ₚ ttlHK (this m).
Proof.
  intros Hk Hp. rewrite (Set_update _ _ _ _ _ p Hk). simpl.
  split; [done|]. split; [|split].
  - rewrite deref_alter_eq by (rewrite length_alter, length_app; lia).
    rewrite deref_alter_eq by (rewrite length_app; lia).
    by rewrite deref_app_l.
  - intros q Hq Hne. rewrite !deref_alter_ne by done. by apply deref_app_l.
  - apply sort_Slice_perm.
Qed.

(** ** What [insertNewHKEntry] does to a sorted index *)

Lemma ascending_cons_intro x l :
  Forall (λ y, x <= y) l → ascending l = true → ascending (x :: l) = true.
Proof.
  intros Hall Hl. destruct l as [|y l]; [done|].
  cbn [ascending]. apply andb_true_iff. split; [|done].
  apply Z.leb_le. by inversion Hall.
Qed.

Lemma ascending_insert l1 l2 x :
  ascending (l1 ++ l2) = true →
  Forall (λ y, y < x) l1 → Forall (λ y, x <= y) l2 →
  ascending (l1 ++ x :: l2) = true.
Proof.
  induction l1 as [|a l1 IH]; intros Hasc Hlo Hhi.
  - by apply ascending_cons_intro.
  - destruct (ascending_cons a (l1 ++ l2) Hasc) as [Hall Hrest].
    inversion Hlo as [|? ? Ha Hlo']; subst.
    apply (ascending_cons_intro a (l1 ++ x :: l2)).
    + apply Forall_app in Hall as [H1 H2].
      apply Forall_app. split; [done|]. constructor; [lia|done].
    + by apply IH.
Qed.

(** [Set] of a new key keeps a sorted index sorted. *)
Lemma Set_new_keeps_sorted `{SliceSorter} now k v optTTL m :
  allocated m → ascending (index_exps m) = true →
  cache (this m) !! k = None →
  ascending (index_exps (TTLCache_Set now k v optTTL m).1) = true.
Proof.
  intros [_ Hidx] Hasc Hk. rewrite (Set_new _ _ _ _ _ Hk).
  unfold index_exps in *. cbn [fst objs this ttlHK with_ttlHK with_cache].
  set (e := fresh_entry now k v optTTL m).
  set (h := objs m) in *. set (s := ttlHK (this m)) in *.
  destruct (slot_splits h s e Hidx Hasc) as [Hlo Hhi].
  set (i := slot (h ++ [e]) s (length h)) in *.
  assert (Hold : ∀ l : list nat, (∀ q, q ∈ l → q ∈ s) →
            (λ q, e_exp (deref ((h ++ [e]) ++ [zeroEntry]) q)) <$> l
            = (λ q, e_exp (deref h q)) <$> l).
  { intros l Hl. apply list_fmap_ext. intros j q Hq.
    apply list_elem_of_lookup_2, Hl, Hidx in Hq.
    rewrite !deref_app_l; [done|done|]. rewrite length_app. lia. }
  rewrite fmap_app, fmap_cons.
  rewrite (Hold (take i s)) by (intros q; apply elem_of_take_l).
  rewrite (Hold (drop i s)) by (intros q; apply elem_of_drop_l).
  rewrite <- app_assoc. cbn [app]. rewrite deref_fresh.
  apply ascending_insert.
  - by rewrite <- fmap_app, take_drop.
  - by apply Forall_fmap.
  - by apply Forall_fmap.
Qed.

(** ** Concrete runs *)

Lemma reachable_fresh `{SliceSorter} : reachable fresh.
Proof. by apply (reachable_new linux_amd64 10 (30 * Second) (5 * Second)). Qed.

Lemma reachable_run `{SliceSorter} ops m : reachable m → reachable (run ops m).
Proof.
  revert m. induction ops as [|op ops IH]; intros m Hm; [done|].
  apply IH. by constructor.
Qed.

Lemma consistent_state_a `{SliceSorter} : consistent state_a.
Proof. apply consistent_reachable, reachable_run, reachable_fresh. Qed.

Lemma consistent_state_abc `{SliceSorter} : consistent state_abc.
Proof. apply consistent_reachable, reachable_run, reachable_fresh. Qed.

(** ** The claims *)

(** C1 (the code departs from the claim).  The claim: updating an existing
    key to a later expiration moves its index reference later and leaves
    the other entries' relative order alone.  On the sorted index a(10),
    b(20), c(30), [Set("a", w, 25s)] at time 0 does mutate a's entry in
    place (same pointer, new value and expiration 25), but the comparator
    of [updateCacheEntry] compares an element with itself, so the insertion
    sort of [sort.Slice] swaps at every step and leaves the index reversed
    (as it does to every index of up to six references, see
    [Set_update_reverses]): c(30), b(20), a(25).  b and c have changed
    places, and a sits behind c, which expires later. *)
Theorem C1_update_reverses_index (S : SliceSorter) :
  let m := state_abc in
  let m' := (TTLCache_Set 0 "a" (istr "w") [25 * Second] m).1 in
  index_keys m = ["a"; "b"; "c"] ∧ index_exps m = [10; 20; 30] ∧
  ascending (index_exps m) = true ∧
  cache (this m) !! "a" = Some 0%nat ∧
  cache (this m') !! "a" = Some 0%nat ∧
  deref (objs m') 0 = {| e_value := istr "w"; e_key := "a"; e_exp := 25 |} ∧
  index_keys m' = ["c"; "b"; "a"] ∧ index_exps m' = [30; 20; 25].
Proof. cbv zeta. repeat split; vm_compute; reflexivity. Qed.

(** C2 (the code departs from the claim).  The claim: in every reachable
    state the index is non-decreasing by expiration.  The state reached
    from the fresh cache by [Set("a", x)], [Set("b", y, 60s)] and
    [Set("a", z)], all at time 0, has the index b(60), a(30).  The
    insertion of a new key alone keeps a sorted index sorted
    ([Set_new_keeps_sorted]); it is the update of an existing key that
    breaks the order. *)
Theorem C2_reachable_unsorted_index (S : SliceSorter) :
  let m := run [CallSet 0 "a" (istr "x") [];
                CallSet 0 "b" (istr "y") [60 * Second];
                CallSet 0 "a" (istr "z") []] fresh in
  reachable m ∧ index_keys m = ["b"; "a"] ∧ index_exps m = [60; 30] ∧
  ascending (index_exps m) = false.
Proof.
  cbv zeta. split; [apply reachable_run, reachable_fresh|].
  repeat split; vm_compute; reflexivity.
Qed.

(** C3, as amended.  The cache has no sweep: its exported methods are [Set]
    and [Get], and neither removes anything.  Whatever the operation and
    its arguments, every key bound in the store is still bound to the same
    entry afterwards, and every reference of the index is still in the
    index, so an entry stays in both whatever its expiration. *)
Theorem C3_no_operation_removes (S : SliceSorter) (op : method) (m : mem) :
  (∀ k p, cache (this m) !! k = Some p →
          cache (this (call op m)) !! k = Some p) ∧
  ttlHK (this m) ⊆+ ttlHK (this (call op m)).
Proof.
  split.
  - intros k p. apply call_keeps_store.
  - apply call_keeps_index.
Qed.

(** C3 as stated fails: with one entry that expired at 30, no exported
    operation invoked on the cache removes what is due at time 100. *)
Lemma C3_no_sweep_counterexample :
  ¬ ∃ op : method,
      removes_expired 100 (@state_a insertion_sorter)
        (@call insertion_sorter op (@state_a insertion_sorter)).
Proof.
  intros [op Hsweep].
  destruct (Hsweep "a" 0%nat) as [Hgone _].
  - reflexivity.
  - vm_compute. discriminate.
  - rewrite (call_keeps_store op state_a "a" 0%nat) in Hgone; [|reflexivity].
    discriminate.
Qed.

(** C4.  In every state reachable from a freshly constructed cache by
    [Set] and [Get], the index has as many references as the store has
    entries, and the references of the index are, as a multiset, the
    pointers the store owns. *)
Theorem C4_index_matches_store (S : SliceSorter) (m : mem) :
  reachable m →
  length (ttlHK (this m)) = size (cache (this m)) ∧
  ttlHK (this m) ≡ₚ store_refs (this m).
Proof.
  intros [_ Hidx]%consistent_reachable. split; [|done].
  rewrite (Permutation_length Hidx). unfold store_refs.
  by rewrite length_fmap, length_map_to_list.
Qed.

Lemma C4_witness :
  length (ttlHK (this (@state_abc insertion_sorter)))
  = size (cache (this (@state_abc insertion_sorter))) ∧
  ttlHK (this (@state_abc insertion_sorter))
  ≡ₚ store_refs (this (@state_abc insertion_sorter)).
Proof.
  apply (C4_index_matches_store insertion_sorter).
  apply reachable_run, reachable_fresh.
Defined.

(** C5, as amended.  On a sorted index, [Set] of a key that is not in the
    store inserts the new reference at the first position whose expiration
    is not smaller than the new one: after every reference that expires
    strictly earlier, and before every reference that expires at the same
    time or later.  Among equal expirations the newest entry comes first. *)
Theorem C5_new_key_goes_before_ties (S : SliceSorter) (now : Time) (k : key)
    (v : iface) (optTTL : list Duration) (m : mem) :
  allocated m → ascending (index_exps m) = true →
  cache (this m) !! k = None →
  let m' := (TTLCache_Set now k v optTTL m).1 in
  ∃ l1 l2 p,
    ttlHK (this m) = l1 ++ l2 ∧
    ttlHK (this m') = l1 ++ p :: l2 ∧
    cache (this m') !! k = Some p ∧
    Forall (λ q, e_exp (deref (objs m') q) < e_exp (deref (objs m') p)) l1 ∧
    Forall (λ q, e_exp (deref (objs m') p) <= e_exp (deref (objs m') q)) l2 ∧
    before_all_ties m' p.
Proof.
  intros [Hstore Hidx] Hasc Hk. cbv zeta.
  rewrite (Set_new _ _ _ _ _ Hk). cbn [fst objs this ttlHK cache with_ttlHK
                                       with_cache].
  set (e := fresh_entry now k v optTTL m).
  set (h := objs m) in *. set (s := ttlHK (this m)) in *.
  destruct (slot_splits h s e Hidx Hasc) as [Hlo Hhi].
  set (i := slot (h ++ [e]) s (length h)) in *.
  assert (Hold : ∀ q, q ∈ s → deref ((h ++ [e]) ++ [zeroEntry]) q = deref h q).
  { intros q Hq. specialize (Hidx q Hq).
    rewrite !deref_app_l; [done|done|]. rewrite length_app. lia. }
  assert (Hnew : deref ((h ++ [e]) ++ [zeroEntry]) (length h) = e).
  { rewrite <- app_assoc. apply deref_fresh. }
  assert (Hlo' : Forall (λ q, e_exp (deref ((h ++ [e]) ++ [zeroEntry]) q)
                              < e_exp (deref ((h ++ [e]) ++ [zeroEntry]) (length h)))
                        (take i s)).
  { rewrite Hnew. apply Forall_forall. intros q Hq.
    rewrite Hold by (eapply elem_of_take_l; exact Hq).
    rewrite Forall_forall in Hlo. by apply Hlo. }
  assert (Hhi' : Forall (λ q, e_exp (deref ((h ++ [e]) ++ [zeroEntry]) (length h))
                              <= e_exp (deref ((h ++ [e]) ++ [zeroEntry]) q))
                        (drop i s)).
  { rewrite Hnew. apply Forall_forall. intros q Hq.
    rewrite Hold by (eapply elem_of_drop_l; exact Hq).
    rewrite Forall_forall in Hhi. by apply Hhi. }
  exists (take i s), (drop i s), (length h).
  split; [by rewrite take_drop|]. split; [done|].
  split; [apply lookup_insert_eq|]. split; [done|]. split; [done|].
  intros a b q Ha Hb Hne Hexp.
  cbn [fst objs this ttlHK cache with_ttlHK with_cache] in *.
  assert (Hfresh : ∀ (x : nat) (l : list nat),
             x ∈ l → (∀ y, y ∈ l → y ∈ s) → x ≠ length h).
  { intros x l Hx Hl ->. specialize (Hidx _ (Hl _ Hx)). lia. }
  apply lookup_app_Some in Ha as [Ha|[Hlen Ha]].
  { apply list_elem_of_lookup_2 in Ha.
    exfalso. eapply (Hfresh _ _ Ha); [|done].
    intros y Hy. by eapply elem_of_take_l. }
  destruct (a - length (take i s))%nat as [|a'] eqn:Ea; simpl in Ha.
  2:{ apply list_elem_of_lookup_2 in Ha.
      exfalso. eapply (Hfresh _ _ Ha); [|done].
      intros y Hy. by eapply elem_of_drop_l. }
  apply lookup_app_Some in Hb as [Hb|[Hlenb Hb]].
  { apply list_elem_of_lookup_2 in Hb.
    rewrite Forall_forall in Hlo'. specialize (Hlo' q Hb). lia. }
  destruct (b - length (take i s))%nat as [|b'] eqn:Eb; simpl in Hb.
  - congruence.
  - lia.
Qed.

Lemma C5_witness :
  ∃ l1 l2 p,
    ttlHK (this (@state_abc insertion_sorter)) = l1 ++ l2 ∧
    ttlHK (this (@TTLCache_Set insertion_sorter 0 "d" (istr "w")
                   [20 * Second] (@state_abc insertion_sorter)).1)
    = l1 ++ p :: l2 ∧
    cache (this (@TTLCache_Set insertion_sorter 0 "d" (istr "w")
                   [20 * Second] (@state_abc insertion_sorter)).1) !! "d"
    = Some p ∧
    Forall (λ q,
        e_exp (deref (objs (@TTLCache_Set insertion_sorter 0 "d" (istr "w")
                        [20 * Second] (@state_abc insertion_sorter)).1) q)
        < e_exp (deref (objs (@TTLCache_Set insertion_sorter 0 "d" (istr "w")
                        [20 * Second] (@state_abc insertion_sorter)).1) p)) l1 ∧
    Forall (λ q,
        e_exp (deref (objs (@TTLCache_Set insertion_sorter 0 "d" (istr "w")
                        [20 * Second] (@state_abc insertion_sorter)).1) p)
        <= e_exp (deref (objs (@TTLCache_Set insertion_sorter 0 "d" (istr "w")
                        [20 * Second] (@state_abc insertion_sorter)).1) q)) l2 ∧
    before_all_ties
      (@TTLCache_Set insertion_sorter 0 "d" (istr "w") [20 * Second]
         (@state_abc insertion_sorter)).1 p.
Proof.
  apply (C5_new_key_goes_before_ties insertion_sorter 0 "d" (istr "w")
           [20 * Second] (@state_abc insertion_sorter)).
  - apply consistent_allocated, consistent_state_abc.
  - vm_compute. reflexivity.
  - vm_compute. reflexivity.
Defined.

(** C5 as stated fails: the index holds a(30); [Set("b", y)] with the same
    expiration 30 puts b's reference (pointer 2) at position 0, in front
    of a's (pointer 0), not after it. *)
Lemma C5_ties_counterexample :
  index_keys (@TTLCache_Set insertion_sorter 0 "b" (istr "y") []
                (@state_a insertion_sorter)).1 = ["b"; "a"] ∧
  index_exps (@TTLCache_Set insertion_sorter 0 "b" (istr "y") []
                (@state_a insertion_sorter)).1 = [30; 30] ∧
  cache (this (@TTLCache_Set insertion_sorter 0 "b" (istr "y") []
                 (@state_a insertion_sorter)).1) !! "b" = Some 2%nat ∧
  ¬ after_all_ties (@TTLCache_Set insertion_sorter 0 "b" (istr "y") []
                      (@state_a insertion_sorter)).1 2%nat.
Proof.
  repeat split; try (vm_compute; reflexivity).
  intros Hafter.
  specialize (Hafter 0%nat 1%nat 0%nat).
  assert (1 < 0)%nat; [|lia].
  apply Hafter; [vm_compute; reflexivity..|lia|vm_compute; reflexivity].
Qed.

(** C6.  [Set(k, v)] returns no error, and a [Get(k)] that follows it
    returns exactly [v] with no error.  No removal can come in between:
    the cache has none. *)
Theorem C6_get_after_set (S : SliceSorter) (now : Time) (k : key) (v : iface)
    (optTTL : list Duration) (m : mem) :
  allocated m →
  (TTLCache_Set now k v optTTL m).2 = None ∧
  (Get k (TTLCache_Set now k v optTTL m).1).2 = (v, None).
Proof.
  intros Halloc. split; [apply Set_no_error|].
  destruct (Set_lookup now k v optTTL m Halloc) as (p & Hp & Hv & _).
  unfold Get. rewrite Hp. simpl. by rewrite Hv.
Qed.

Lemma C6_witness :
  (@TTLCache_Set insertion_sorter 7 "b" (iint 49) [] (@state_abc insertion_sorter)).2
  = None ∧
  (Get "b" (@TTLCache_Set insertion_sorter 7 "b" (iint 49) []
              (@state_abc insertion_sorter)).1).2 = (iint 49, None).
Proof.
  apply (C6_get_after_set insertion_sorter 7 "b" (iint 49) []
           (@state_abc insertion_sorter)).
  apply consistent_allocated, consistent_state_abc.
Defined.

(** C7.  After [Set(k, v1)] and then [Set(k, v2)] the store has exactly
    one entry for [k], the index has exactly one reference to an entry for
    [k], that reference is the store's, and the entry's value is [v2]. *)
Theorem C7_set_twice_one_entry (S : SliceSorter) (now1 now2 : Time) (k : key)
    (v1 v2 : iface) (opt1 opt2 : list Duration) (m : mem) :
  consistent m →
  let m2 := (TTLCache_Set now2 k v2 opt2
               (TTLCache_Set now1 k v1 opt1 m).1).1 in
  ∃ p,
    cache (this m2) !! k = Some p ∧
    e_value (deref (objs m2) p) = v2 ∧
    filter (λ kq, e_key (deref (objs m2) kq.2) = k)
           (map_to_list (cache (this m2))) = [(k, p)] ∧
    filter (λ q, e_key (deref (objs m2) q) = k) (ttlHK (this m2)) = [p].
Proof.
  intros Hm. cbv zeta.
  pose proof (consistent_Set now1 k v1 opt1 m Hm) as Hm1.
  pose proof (consistent_Set now2 k v2 opt2 _ Hm1) as Hm2.
  destruct (Set_lookup now2 k v2 opt2 _ (consistent_allocated _ Hm1))
    as (p & Hp & Hv & _).
  exists p. split; [done|]. split; [done|]. split.
  - by apply consistent_unique_entry.
  - by apply consistent_unique_ref.
Qed.

Lemma C7_witness :
  ∃ p,
    cache (this (@TTLCache_Set insertion_sorter 2 "b" (iint 2) []
             (@TTLCache_Set insertion_sorter 1 "b" (iint 1) []
                (@state_abc insertion_sorter)).1).1) !! "b" = Some p ∧
    e_value (deref (objs (@TTLCache_Set insertion_sorter 2 "b" (iint 2) []
             (@TTLCache_Set insertion_sorter 1 "b" (iint 1) []
                (@state_abc insertion_sorter)).1).1) p) = iint 2 ∧
    filter (λ kq, e_key (deref (objs (@TTLCache_Set insertion_sorter 2 "b"
             (iint 2) []
             (@TTLCache_Set insertion_sorter 1 "b" (iint 1) []
                (@state_abc insertion_sorter)).1).1) kq.2) = "b")
           (map_to_list (cache (this (@TTLCache_Set insertion_sorter 2 "b"
             (iint 2) []
             (@TTLCache_Set insertion_sorter 1 "b" (iint 1) []
                (@state_abc insertion_sorter)).1).1))) = [("b", p)] ∧
    filter (λ q, e_key (deref (objs (@TTLCache_Set insertion_sorter 2 "b"
             (iint 2) []
             (@TTLCache_Set insertion_sorter 1 "b" (iint 1) []
                (@state_abc insertion_sorter)).1).1) q) = "b")
           (ttlHK (this (@TTLCache_Set insertion_sorter 2 "b" (iint 2) []
             (@TTLCache_Set insertion_sorter 1 "b" (iint 1) []
                (@state_abc insertion_sorter)).1).1)) = [p].
Proof.
  apply (C7_set_twice_one_entry insertion_sorter 1 2 "b" (iint 1) (iint 2)
           [] [] (@state_abc insertion_sorter)).
  apply consistent_state_abc.
Defined.



(** C9.  [Get(k)] returns the value of the entry the store binds [k] to,
    with no error, whenever [k] is present; it returns the [KeyNotFound]
    failure exactly when [k] is absent; it leaves the state as it was; and
    its result does not depend on any entry's expiration, so an entry that
    has expired is still returned. *)
Theorem C9_get_is_lazy (k : key) (m : mem) :
  (∀ p, cache (this m) !! k = Some p →
        (Get k m).2 = (e_value (deref (objs m) p), None)) ∧
  (cache (this m) !! k = None →
   (Get k m).2 = (inil, Some (newKeyNotFoundErr k))) ∧
  ((Get k m).2.2 = Some (newKeyNotFoundErr k) ↔ cache (this m) !! k = None) ∧
  (Get k m).1 = m ∧
  (∀ q x, (Get k (Mem (alter (set_exp x) q (objs m)) (this m))).2
          = (Get k m).2).
Proof.
  unfold Get. cbn [this objs].
  destruct (cache (this m) !! k) as [p|] eqn:Hk; cbn [fst snd].
  - repeat split; try done.
    + by intros ? [= ->].
    + intros q x. by rewrite (deref_alter_field e_value).
  - repeat split; done.
Qed.

(** C10.  The expiration [Set] stores is the Unix time in seconds of
    [now + ttl], kept modulo [2 ^ 32]: for a TTL of whole seconds, the
    current Unix second plus the TTL, modulo [2 ^ 32].  It is exact while
    the true expiration is below [2 ^ 32] (7 February 2106) and strictly
    smaller than the true expiration from there on.  So a later expiration
    can be stored as a smaller number: ten seconds before the wrap, a 20 s
    entry is stored as 10 and a 5 s entry as [2 ^ 32 - 5], and the index
    places the 20 s entry first; at time 0 a TTL of [2 ^ 32] seconds is
    stored as 0, below the 1 of a one-second TTL. *)
Theorem C10_expiration_wraps (S : SliceSorter) :
  (∀ now ttl, getExp now ttl = ((now + ttl) / 1000000000) mod 2 ^ 32) ∧
  (∀ now secs, getExp now (secs * Second) = (Unix now + secs) mod 2 ^ 32) ∧
  (∀ now ttl, 0 <= getExp now ttl < 2 ^ 32) ∧
  (∀ now k v optTTL m, allocated m →
     ∃ p, cache (this (TTLCache_Set now k v optTTL m).1) !! k = Some p ∧
          e_exp (deref (objs (TTLCache_Set now k v optTTL m).1) p)
          = getExp now (effective_ttl (this m) optTTL)) ∧
  (∀ now ttl, 0 <= Unix (Add now ttl) < 2 ^ 32 →
     getExp now ttl = Unix (Add now ttl)) ∧
  (∀ now ttl, 2 ^ 32 <= Unix (Add now ttl) →
     getExp now ttl < Unix (Add now ttl)) ∧
  (getExp near_wrap (5 * Second) = 2 ^ 32 - 5 ∧
   getExp near_wrap (20 * Second) = 10) ∧
  (getExp 0 (1 * Second) = 1 ∧ getExp 0 (2 ^ 32 * Second) = 0) ∧
  (let m := run [CallSet near_wrap "a" (istr "x") [5 * Second];
                 CallSet near_wrap "b" (istr "y") [20 * Second]] fresh in
   index_keys m = ["b"; "a"] ∧ index_exps m = [10; 2 ^ 32 - 5]).
Proof.
  split; [done|].
  split.
  { intros now secs. unfold getExp, uint32, Unix, Add.
    by rewrite Z.div_add. }
  split.
  { intros now ttl. unfold getExp, uint32. apply Z.mod_pos_bound. lia. }
  split.
  { intros now k v optTTL m Halloc.
    destruct (Set_lookup now k v optTTL m Halloc) as (p & Hp & _ & Hx).
    by exists p. }
  split.
  { intros now ttl Hrange. unfold getExp, uint32.
    by apply Z.mod_small. }
  split.
  { intros now ttl Hlate. unfold getExp, uint32.
    pose proof (Z.mod_pos_bound (Unix (Add now ttl)) (2 ^ 32)). lia. }
  cbv zeta. repeat split; vm_compute; reflexivity.
Qed.

(** ** Further properties of the cache *)

Lemma run_snoc `{SliceSorter} ops op m :
  run (ops ++ [op]) m = call op (run ops m).
Proof. unfold run. by rewrite foldl_app. Qed.

Lemma consistent_run `{SliceSorter} ops m :
  consistent m → consistent (run ops m).
Proof.
  revert m. induction ops as [|op ops IH]; intros m Hm; [done|].
  apply IH. by apply consistent_call.
Qed.

Lemma consistent_new (c : TTLCache) rt numSize ttl sweepPeriod :
  NewTTLCache rt numSize ttl sweepPeriod = Returns (Some c, None) →
  consistent (Mem [] c) ∧ cache c = ∅ ∧ ttlHK c = [].
Proof.
  unfold NewTTLCache, makeslice, makemap. intros Hnew.
  repeat case_match; simplify_eq.
  split; [|done].
  split; simpl; [intros k p Hk; by rewrite lookup_empty in Hk|].
  unfold store_refs. simpl. by rewrite map_to_list_empty.
Qed.

(** [Set] of one key leaves what [Get] returns for every other key. *)
Lemma Get_Set_other `{SliceSorter} now k k' v optTTL m :
  consistent m → k ≠ k' →
  (Get k (TTLCache_Set now k' v optTTL m).1).2 = (Get k m).2.
Proof.
  intros [Hstore _] Hne. unfold Get.
  destruct (cache (this m) !! k') as [p'|] eqn:Hk'.
  - rewrite (Set_update _ _ _ _ _ p' Hk'). cbn [fst this objs cache with_ttlHK].
    destruct (cache (this m) !! k) as [p|] eqn:Hk; [|done].
    destruct (Hstore k p Hk) as [Hp Hkey].
    destruct (Hstore k' p' Hk') as [Hp' Hkey'].
    assert (p' ≠ p) by congruence.
    cbn [snd]. by rewrite !deref_alter_ne, deref_app_l.
  - rewrite (Set_new _ _ _ _ _ Hk').
    cbn [fst this objs cache with_ttlHK with_cache].
    rewrite lookup_insert_ne by done.
    destruct (cache (this m) !! k) as [p|] eqn:Hk; [|done].
    destruct (Hstore k p Hk) as [Hp Hkey].
    cbn [snd]. rewrite !deref_app_l; [done|done|]. rewrite length_app. lia.
Qed.

Lemma Get_call `{SliceSorter} op k m :
  consistent m →
  (Get k (call op m)).2
  = match op with
    | CallSet _ k' v _ => if decide (k' = k) then (v, None) else (Get k m).2
    | CallGet _ => (Get k m).2
    end.
Proof.
  intros Hm. destruct op as [now k' v optTTL|k']; cbn [call].
  - case_decide as Hk; [subst k'|].
    + destruct (Set_lookup now k v optTTL m (consistent_allocated _ Hm))
        as (p & Hp & Hv & _).
      unfold Get. rewrite Hp. cbn [snd]. by rewrite Hv.
    + apply Get_Set_other; [done|congruence].
  - unfold Get at 2. by destruct (cache (this m) !! k').
Qed.

Lemma Get_run `{SliceSorter} ops k m :
  consistent m →
  (Get k (run ops m)).2
  = match last_set k ops with
    | Some v => (v, None)
    | None => (Get k m).2
    end.
Proof.
  intros Hm. induction ops as [|op ops IH] using rev_ind; [done|].
  rewrite run_snoc, Get_call by (by apply consistent_run).
  unfold last_set. rewrite foldl_app. cbn [foldl].
  fold (last_set k ops).
  destruct op as [now k' v optTTL|k']; [|done].
  by case_decide.
Qed.

(** A call binds a key in the store only if it is a [Set] of that key. *)
Lemma store_key_call `{SliceSorter} op k m :
  cache (this m) !! k = None → k ∉ set_keys [op] →
  cache (this (call op m)) !! k = None.
Proof.
  intros Hk Hop. destruct op as [now k' v optTTL|k']; cbn [call].
  - assert (k' ≠ k) as Hne.
    { intros ->. apply Hop. simpl. by left. }
    destruct (cache (this m) !! k') as [p'|] eqn:Hk'.
    + by rewrite (Set_update _ _ _ _ _ p' Hk').
    + rewrite (Set_new _ _ _ _ _ Hk'). simpl. by rewrite lookup_insert_ne.
  - unfold Get. by destruct (cache (this m) !! k').
Qed.

Lemma set_keys_snoc ops op : set_keys (ops ++ [op]) = set_keys ops ++ set_keys [op].
Proof. unfold set_keys. by rewrite omap_app. Qed.

Lemma store_key_run `{SliceSorter} ops k m :
  cache (this m) !! k = None → k ∉ set_keys ops →
  cache (this (run ops m)) !! k = None.
Proof.
  intros Hk. induction ops as [|op ops IH] using rev_ind; intros Hops; [done|].
  rewrite set_keys_snoc in Hops. apply not_elem_of_app in Hops as [H1 H2].
  rewrite run_snoc. apply store_key_call; [by apply IH|done].
Qed.

Lemma ascending_call `{SliceSorter} op m :
  consistent m → ascending (index_exps m) = true →
  (∀ k, k ∈ set_keys [op] → cache (this m) !! k = None) →
  ascending (index_exps (call op m)) = true.
Proof.
  intros Hm Hasc Hnew. destruct op as [now k v optTTL|k]; cbn [call].
  - apply Set_new_keeps_sorted; [by apply consistent_allocated|done|].
    apply Hnew. simpl. by left.
  - unfold Get. by destruct (cache (this m) !! k).
Qed.

Lemma ascending_run `{SliceSorter} ops m :
  consistent m → ascending (index_exps m) = true →
  NoDup (set_keys ops) →
  (∀ k, k ∈ set_keys ops → cache (this m) !! k = None) →
  ascending (index_exps (run ops m)) = true.
Proof.
  intros Hm Hasc. induction ops as [|op ops IH] using rev_ind;
    intros Hnd Hnew; [done|].
  rewrite set_keys_snoc in Hnd, Hnew.
  apply NoDup_app in Hnd as (Hnd1 & Hdisj & _).
  rewrite run_snoc. apply ascending_call.
  - by apply consistent_run.
  - apply IH; [done|]. intros k Hk. apply Hnew, elem_of_app. by left.
  - intros k Hk. apply store_key_run.
    + apply Hnew, elem_of_app. by right.
    + intros Hk'. by apply (Hdisj k).
Qed.

(** Under the invariant, reading the keys through the index gives the
    store's keys. *)
Lemma consistent_index_keys m :
  consistent m → index_keys m ≡ₚ (map_to_list (cache (this m))).*1.
Proof.
  intros [Hstore Hidx]. unfold index_keys. rewrite Hidx. unfold store_refs.
  rewrite <- list_fmap_compose.
  apply reflexive_eq, list_fmap_ext.
  intros i [k p] Hkp%list_elem_of_lookup_2%elem_of_map_to_list. simpl.
  by destruct (Hstore k p Hkp).
Qed.

Lemma getExp_range now ttl : 0 <= getExp now ttl < 2 ^ 32.
Proof. unfold getExp, uint32. apply Z.mod_pos_bound. lia. Qed.

Lemma exps_in_range_call `{SliceSorter} op m :
  consistent m → exps_in_range m → exps_in_range (call op m).
Proof.
  intros [Hstore _] Hrange. destruct op as [now k v optTTL|k]; cbn [call].
  - destruct (cache (this m) !! k) as [p|] eqn:Hk.
    + rewrite (Set_update _ _ _ _ _ p Hk). intros k' p' Hk'.
      cbn [fst this objs cache with_ttlHK] in *.
      destruct (Hstore k' p' Hk') as [Hp' _].
      destruct (decide (p = p')) as [->|Hne].
      * rewrite deref_alter_eq by (rewrite length_alter, length_app; lia).
        apply getExp_range.
      * rewrite !deref_alter_ne, deref_app_l by done. by apply (Hrange k').
    + rewrite (Set_new _ _ _ _ _ Hk). intros k' p' Hk'.
      cbn [fst this objs cache with_ttlHK with_cache] in *.
      rewrite <- app_assoc. cbn [app].
      destruct (decide (k = k')) as [<-|Hne].
      * rewrite lookup_insert_eq in Hk'. injection Hk' as <-.
        rewrite deref_fresh. apply getExp_range.
      * rewrite lookup_insert_ne in Hk' by done.
        destruct (Hstore k' p' Hk') as [Hp' _].
        rewrite deref_app_l by done. by apply (Hrange k').
  - unfold Get. by destruct (cache (this m) !! k).
Qed.

Lemma exps_in_range_reachable `{SliceSorter} m :
  reachable m → exps_in_range m.
Proof.
  induction 1 as [rt numSize ttl sweepPeriod c Hnew|op m Hm IH].
  - destruct (consistent_new _ _ _ _ _ Hnew) as (_ & Hc & _).
    intros k p Hk. simpl in Hk. by rewrite Hc, lookup_empty in Hk.
  - apply exps_in_range_call; [by apply consistent_reachable|done].
Qed.

(** X1.  [updateCacheEntry] fails with the bad-update-request error for
    the entry's key exactly when the store has no entry under that key,
    and then leaves the heap, the store and the index as they were; when
    the key is present it returns no error. *)
Theorem X1_update_missing_key (S : SliceSorter) (entry : loc) (m : mem) :
  ((updateCacheEntry entry m).2
   = Some (newBadUpdateRequestErr (e_key (deref (objs m) entry)))
   ↔ cache (this m) !! e_key (deref (objs m) entry) = None) ∧
  (cache (this m) !! e_key (deref (objs m) entry) = None →
   (updateCacheEntry entry m).1 = m) ∧
  (is_Some (cache (this m) !! e_key (deref (objs m) entry)) →
   (updateCacheEntry entry m).2 = None).
Proof.
  unfold updateCacheEntry.
  destruct (cache (this m) !! e_key (deref (objs m) entry)) as [p|];
    cbn [fst snd].
  - split; [split; discriminate|]. split; [discriminate|done].
  - split; [done|]. split; [done|]. by intros [? ?].
Qed.

(** X2.  [Set] returns no error, in any state and for any arguments: it
    calls [updateCacheEntry] only for a key it has just found in the
    store, so the bad-update-request error never reaches its caller. *)
Theorem X2_set_never_fails (S : SliceSorter) (now : Time) (k : key)
    (v : iface) (optTTL : list Duration) (m : mem) :
  (TTLCache_Set now k v optTTL m).2 = None.
Proof. apply Set_no_error. Qed.

(** X3.  [Set] on a key that is present, with an index of at most six
    references, leaves the index reversed, whatever the expirations; a
    second [Set] on that key puts the index back in its first order. *)
Theorem X3_update_reverses_twice_restores (S : SliceSorter) (now1 now2 : Time)
    (k : key) (v1 v2 : iface) (opt1 opt2 : list Duration) (m : mem) :
  is_Some (cache (this m) !! k) →
  (length (ttlHK (this m)) ≤ insertionLimit)%nat →
  ttlHK (this (TTLCache_Set now1 k v1 opt1 m).1) = reverse (ttlHK (this m)) ∧
  ttlHK (this (TTLCache_Set now2 k v2 opt2
                 (TTLCache_Set now1 k v1 opt1 m).1).1)
  = ttlHK (this m).
Proof.
  intros [p Hp] Hlen.
  pose proof (Set_update_reverses now1 k v1 opt1 m p Hp Hlen) as H1.
  split; [done|].
  rewrite (Set_update_reverses now2 k v2 opt2 _ p).
  - by rewrite H1, reverse_involutive.
  - apply (call_keeps_store (CallSet now1 k v1 opt1) m k p Hp).
  - by rewrite H1, length_reverse.
Qed.

Lemma X3_witness :
  ttlHK (this (@TTLCache_Set insertion_sorter 1 "b" (iint 1) []
                 (@state_abc insertion_sorter)).1)
  = reverse (ttlHK (this (@state_abc insertion_sorter))) ∧
  ttlHK (this (@TTLCache_Set insertion_sorter 2 "b" (iint 2) []
                 (@TTLCache_Set insertion_sorter 1 "b" (iint 1) []
                    (@state_abc insertion_sorter)).1).1)
  = ttlHK (this (@state_abc insertion_sorter)).
Proof.
  apply (X3_update_reverses_twice_restores insertion_sorter 1 2 "b"
           (iint 1) (iint 2) [] [] (@state_abc insertion_sorter)).
  - vm_compute. eauto.
  - vm_compute. lia.
Defined.

(** X4.  [Set] of a key that is not in the store keeps a sorted index
    sorted. *)
Theorem X4_insert_keeps_index_sorted (S : SliceSorter) (now : Time) (k : key)
    (v : iface) (optTTL : list Duration) (m : mem) :
  allocated m → ascending (index_exps m) = true →
  cache (this m) !! k = None →
  ascending (index_exps (TTLCache_Set now k v optTTL m).1) = true.
Proof. apply Set_new_keeps_sorted. Qed.

Lemma X4_witness :
  ascending (index_exps (@TTLCache_Set insertion_sorter 0 "d" (istr "w")
                           [20 * Second] (@state_abc insertion_sorter)).1)
  = true.
Proof.
  apply (X4_insert_keeps_index_sorted insertion_sorter 0 "d" (istr "w")
           [20 * Second] (@state_abc insertion_sorter)).
  - apply consistent_allocated, consistent_state_abc.
  - vm_compute. reflexivity.
  - vm_compute. reflexivity.
Defined.

(** X5.  [Set] on a key that is present writes the new value and the new
    expiration into the entry the store already holds for the key: the
    store's bindings are unchanged, the entry keeps its address and its
    key, every other allocated entry is untouched, and the index holds the
    same references as before (in some order). *)
Theorem X5_update_is_in_place (S : SliceSorter) (now : Time) (k : key)
    (v : iface) (optTTL : list Duration) (m : mem) (p : loc) :
  cache (this m) !! k = Some p → (p < length (objs m))%nat →
  cache (this (TTLCache_Set now k v optTTL m).1) = cache (this m) ∧
  deref (objs (TTLCache_Set now k v optTTL m).1) p
  = {| e_value := v; e_key := e_key (deref (objs m) p);
       e_exp := getExp now (effective_ttl (this m) optTTL) |} ∧
  (∀ q, (q < length (objs m))%nat → q ≠ p →
        deref (objs (TTLCache_Set now k v optTTL m).1) q = deref (objs m) q) ∧
  ttlHK (this (TTLCache_Set now k v optTTL m).1) ≡ₚ ttlHK (this m).
Proof. apply Set_update_in_place. Qed.

Lemma X5_witness :
  cache (this (@TTLCache_Set insertion_sorter 7 "b" (iint 49) []
                 (@state_abc insertion_sorter)).1)
  = cache (this (@state_abc insertion_sorter)) ∧
  deref (objs (@TTLCache_Set insertion_sorter 7 "b" (iint 49) []
                 (@state_abc insertion_sorter)).1) 2
  = {| e_value := iint 49;
       e_key := e_key (deref (objs (@state_abc insertion_sorter)) 2);
       e_exp := getExp 7 (effective_ttl
                            (this (@state_abc insertion_sorter)) []) |} ∧
  (∀ q, (q < length (objs (@state_abc insertion_sorter)))%nat → q ≠ 2%nat →
        deref (objs (@TTLCache_Set insertion_sorter 7 "b" (iint 49) []
                       (@state_abc insertion_sorter)).1) q
        = deref (objs (@state_abc insertion_sorter)) q) ∧
  ttlHK (this (@TTLCache_Set insertion_sorter 7 "b" (iint 49) []
                 (@state_abc insertion_sorter)).1)
  ≡ₚ ttlHK (this (@state_abc insertion_sorter)).
Proof.
  apply (X5_update_is_in_place insertion_sorter 7 "b" (iint 49) []
           (@state_abc insertion_sorter) 2%nat).
  - vm_compute. reflexivity.
  - vm_compute. lia.
Defined.

(** X6.  [Set] of a key that is not in the store, on any index (sorted or
    not): the store gains the binding of the key to a newly allocated
    entry that holds the key, the value and the computed expiration; the
    index gains that one reference, with the references it had before in
    their former order; and no entry allocated before is changed. *)
Theorem X6_insert_adds_one_reference (S : SliceSorter) (now : Time) (k : key)
    (v : iface) (optTTL : list Duration) (m : mem) :
  cache (this m) !! k = None →
  ∃ l1 l2 p,
    (length (objs m) ≤ p)%nat ∧
    cache (this (TTLCache_Set now k v optTTL m).1)
    = <[k := p]> (cache (this m)) ∧
    deref (objs (TTLCache_Set now k v optTTL m).1) p
    = {| e_value := v; e_key := k;
         e_exp := getExp now (effective_ttl (this m) optTTL) |} ∧
    ttlHK (this m) = l1 ++ l2 ∧
    ttlHK (this (TTLCache_Set now k v optTTL m).1) = l1 ++ p :: l2 ∧
    (∀ q, (q < length (objs m))%nat →
          deref (objs (TTLCache_Set now k v optTTL m).1) q
          = deref (objs m) q).
Proof.
  intros Hk. rewrite (Set_new _ _ _ _ _ Hk).
  cbn [fst this objs cache ttlHK with_ttlHK with_cache].
  eexists _, _, (length (objs m)).
  split; [done|]. split; [done|]. split.
  { rewrite <- app_assoc. cbn [app]. by rewrite deref_fresh. }
  split; [symmetry; apply take_drop|]. split; [done|].
  intros q Hq. rewrite !deref_app_l; [done|done|]. rewrite length_app. lia.
Qed.

Lemma X6_witness :
  ∃ l1 l2 p,
    (length (objs (@state_abc insertion_sorter)) ≤ p)%nat ∧
    cache (this (@TTLCache_Set insertion_sorter 0 "d" (istr "w") []
                   (@state_abc insertion_sorter)).1)
    = <[("d" : string) := p]> (cache (this (@state_abc insertion_sorter))) ∧
    deref (objs (@TTLCache_Set insertion_sorter 0 "d" (istr "w") []
                   (@state_abc insertion_sorter)).1) p
    = {| e_value := istr "w"; e_key := "d";
         e_exp := getExp 0 (effective_ttl
                              (this (@state_abc insertion_sorter)) []) |} ∧
    ttlHK (this (@state_abc insertion_sorter)) = l1 ++ l2 ∧
    ttlHK (this (@TTLCache_Set insertion_sorter 0 "d" (istr "w") []
                   (@state_abc insertion_sorter)).1) = l1 ++ p :: l2 ∧
    (∀ q, (q < length (objs (@state_abc insertion_sorter)))%nat →
          deref (objs (@TTLCache_Set insertion_sorter 0 "d" (istr "w") []
                         (@state_abc insertion_sorter)).1) q
          = deref (objs (@state_abc insertion_sorter)) q).
Proof.
  apply (X6_insert_adds_one_reference insertion_sorter 0 "d" (istr "w") []
           (@state_abc insertion_sorter)).
  vm_compute. reflexivity.
Defined.

(** X7.  [Set] changes the number of store entries and the length of the
    index together: both stay as they are when the key is present, and
    both grow by one when it is not. *)
Theorem X7_set_length_accounting (S : SliceSorter) (now : Time) (k : key)
    (v : iface) (optTTL : list Duration) (m : mem) :
  size (cache (this (TTLCache_Set now k v optTTL m).1))
  = match cache (this m) !! k with
    | Some _ => size (cache (this m))
    | None => Datatypes.S (size (cache (this m)))
    end ∧
  length (ttlHK (this (TTLCache_Set now k v optTTL m).1))
  = match cache (this m) !! k with
    | Some _ => length (ttlHK (this m))
    | None => Datatypes.S (length (ttlHK (this m)))
    end.
Proof.
  destruct (cache (this m) !! k) as [p|] eqn:Hk.
  - rewrite (Set_update _ _ _ _ _ p Hk). simpl. split; [done|].
    apply Permutation_length, sort_Slice_perm.
  - rewrite (Set_new _ _ _ _ _ Hk). simpl. split.
    + by apply map_size_insert_None.
    + rewrite length_app. simpl. rewrite length_take, length_drop.
      pose proof (slot_le (objs m ++ [fresh_entry now k v optTTL m])
                    (ttlHK (this m)) (length (objs m))).
      lia.
Qed.

(** X8.  [Set] of one key does not change what [Get] returns for any
    other key, be it a hit or a miss. *)
Theorem X8_set_leaves_other_keys (S : SliceSorter) (now : Time) (k k' : key)
    (v : iface) (optTTL : list Duration) (m : mem) :
  consistent m → k ≠ k' →
  (Get k (TTLCache_Set now k' v optTTL m).1).2 = (Get k m).2.
Proof. apply Get_Set_other. Qed.

Lemma X8_witness :
  (Get "a" (@TTLCache_Set insertion_sorter 7 "b" (iint 49) []
              (@state_abc insertion_sorter)).1).2
  = (Get "a" (@state_abc insertion_sorter)).2.
Proof.
  apply (X8_set_leaves_other_keys insertion_sorter 7 "a" "b" (iint 49) []
           (@state_abc insertion_sorter)).
  - apply consistent_state_abc.
  - discriminate.
Defined.

(** X9.  After any sequence of [Set] and [Get] calls on a newly
    constructed cache, whatever the times and TTLs, [Get(k)] returns the
    value of the most recent [Set(k, _)] with no error, and the
    key-not-found failure when the key was never set: entries never leave
    on their own. *)
Theorem X9_get_returns_last_set (S : SliceSorter) (rt : Platform)
    (numSize : N) (ttl sweepPeriod : Duration) (c : TTLCache)
    (ops : list method) (k : key) :
  NewTTLCache rt numSize ttl sweepPeriod = Returns (Some c, None) →
  (Get k (run ops (Mem [] c))).2
  = match last_set k ops with
    | Some v => (v, None)
    | None => (inil, Some (newKeyNotFoundErr k))
    end.
Proof.
  intros Hnew. destruct (consistent_new _ _ _ _ _ Hnew) as (Hc & Hempty & _).
  rewrite Get_run by done.
  destruct (last_set k ops); [done|].
  unfold Get. cbn [this]. by rewrite Hempty, lookup_empty.
Qed.

Lemma X9_witness :
  (Get "a" (@run insertion_sorter
              [CallSet 0 "a" (istr "x") []; CallSet 5 "b" (istr "y") [];
               CallSet 9 "a" (iint 3) [Second]; CallGet "b"]
              fresh)).2
  = match last_set "a"
            [CallSet 0 "a" (istr "x") []; CallSet 5 "b" (istr "y") [];
             CallSet 9 "a" (iint 3) [Second]; CallGet "b"] with
    | Some v => (v, None)
    | None => (inil, Some (newKeyNotFoundErr "a"))
    end.
Proof.
  apply (X9_get_returns_last_set insertion_sorter linux_amd64 10
           (30 * Second) (5 * Second)).
  reflexivity.
Defined.

(** X10.  In every state reachable from a new cache, the keys read
    through the index are the keys of the store, each exactly once. *)
Theorem X10_index_keys_are_store_keys (S : SliceSorter) (m : mem) :
  reachable m →
  index_keys m ≡ₚ (map_to_list (cache (this m))).*1 ∧
  NoDup (index_keys m).
Proof.
  intros Hm%consistent_reachable.
  pose proof (consistent_index_keys m Hm) as Hkeys.
  split; [done|]. rewrite Hkeys. apply NoDup_fst_map_to_list.
Qed.

Lemma X10_witness :
  index_keys (@state_abc insertion_sorter)
  ≡ₚ (map_to_list (cache (this (@state_abc insertion_sorter)))).*1 ∧
  NoDup (index_keys (@state_abc insertion_sorter)).
Proof.
  apply (X10_index_keys_are_store_keys insertion_sorter).
  apply reachable_run, reachable_fresh.
Defined.

(** X11.  As long as no key is set twice, the index of a newly
    constructed cache stays sorted by expiration, whatever the times and
    TTLs of the calls. *)
Theorem X11_sorted_without_updates (S : SliceSorter) (rt : Platform)
    (numSize : N) (ttl sweepPeriod : Duration) (c : TTLCache)
    (ops : list method) :
  NewTTLCache rt numSize ttl sweepPeriod = Returns (Some c, None) →
  NoDup (set_keys ops) →
  ascending (index_exps (run ops (Mem [] c))) = true.
Proof.
  intros Hnew Hnd.
  destruct (consistent_new _ _ _ _ _ Hnew) as (Hc & Hempty & Hidx).
  apply ascending_run; [done| |done|].
  - unfold index_exps. cbn [this]. by rewrite Hidx.
  - intros k _. cbn [this]. by rewrite Hempty, lookup_empty.
Qed.

Lemma X11_witness :
  ascending (index_exps (@run insertion_sorter
     [CallSet 0 "a" (istr "x") [50 * Second]; CallGet "a";
      CallSet 5 "b" (istr "y") []; CallSet 9 "c" (iint 3) [Second]]
     fresh)) = true.
Proof.
  apply (X11_sorted_without_updates insertion_sorter linux_amd64 10
           (30 * Second) (5 * Second)).
  - reflexivity.
  - apply (bool_decide_unpack _). vm_compute. exact I.
Defined.

(** X12.  Only the first optional TTL counts, and only when it is
    positive: after [Set] with a positive first override the entry's
    expiration is computed from that override; with a zero or negative one,
    or with none, it is computed from the cache's default TTL. *)
Theorem X12_ttl_override (S : SliceSorter) (now : Time) (k : key) (v : iface)
    (d : Duration) (rest : list Duration) (m : mem) :
  allocated m →
  (∃ p, cache (this (TTLCache_Set now k v (d :: rest) m).1) !! k = Some p ∧
        e_exp (deref (objs (TTLCache_Set now k v (d :: rest) m).1) p)
        = getExp now (if decide (0 < d) then d else defaultTTL (this m))) ∧
  (∃ p, cache (this (TTLCache_Set now k v [] m).1) !! k = Some p ∧
        e_exp (deref (objs (TTLCache_Set now k v [] m).1) p)
        = getExp now (defaultTTL (this m))).
Proof.
  intros Halloc. split.
  - destruct (Set_lookup now k v (d :: rest) m Halloc) as (p & Hp & _ & Hx).
    exists p. split; [done|]. rewrite Hx. cbn [effective_ttl].
    destruct (Z.ltb_spec 0 d); case_decide; (done || lia).
  - destruct (Set_lookup now k v [] m Halloc) as (p & Hp & _ & Hx).
    by exists p.
Qed.

Lemma X12_witness :
  (∃ p, cache (this (@TTLCache_Set insertion_sorter 0 "b" (iint 1)
                       [-5; 7 * Second] (@state_abc insertion_sorter)).1)
          !! "b" = Some p ∧
        e_exp (deref (objs (@TTLCache_Set insertion_sorter 0 "b" (iint 1)
                       [-5; 7 * Second] (@state_abc insertion_sorter)).1) p)
        = getExp 0 (if decide (0 < -5) then -5
                    else defaultTTL (this (@state_abc insertion_sorter)))) ∧
  (∃ p, cache (this (@TTLCache_Set insertion_sorter 0 "b" (iint 1) []
                       (@state_abc insertion_sorter)).1) !! "b" = Some p ∧
        e_exp (deref (objs (@TTLCache_Set insertion_sorter 0 "b" (iint 1) []
                       (@state_abc insertion_sorter)).1) p)
        = getExp 0 (defaultTTL (this (@state_abc insertion_sorter)))).
Proof.
  apply (X12_ttl_override insertion_sorter 0 "b" (iint 1) (-5) [7 * Second]
           (@state_abc insertion_sorter)).
  apply consistent_allocated, consistent_state_abc.
Defined.

(** X13.  While the expiration time stays between the epoch and the wrap
    of the 32-bit second counter, a longer TTL never gives a smaller
    stored expiration. *)
Theorem X13_getExp_monotone (now : Time) (ttl1 ttl2 : Duration) :
  ttl1 <= ttl2 → 0 <= Unix (Add now ttl1) → Unix (Add now ttl2) < 2 ^ 32 →
  getExp now ttl1 <= getExp now ttl2.
Proof.
  intros Hle Hlo Hhi. unfold getExp, uint32.
  assert (Unix (Add now ttl1) <= Unix (Add now ttl2)) as Hmono.
  { unfold Unix, Add, Second. apply Z.div_le_mono; lia. }
  rewrite !Z.mod_small by lia. done.
Qed.

Lemma X13_witness : getExp 1500000000 (30 * Second) <= getExp 1500000000 (60 * Second).
Proof.
  apply (X13_getExp_monotone 1500000000 (30 * Second) (60 * Second));
    vm_compute; congruence.
Defined.

(** X14.  The stored expiration has a period of [2 ^ 32] seconds, in the
    TTL and in the current time: adding a multiple of it to either changes
    nothing. *)
Theorem X14_getExp_periodic (now : Time) (ttl : Duration) (n : Z) :
  getExp now (ttl + n * (2 ^ 32 * Second)) = getExp now ttl ∧
  getExp (now + n * (2 ^ 32 * Second)) ttl = getExp now ttl.
Proof.
  unfold getExp, uint32, Unix, Add.
  replace (now + (ttl + n * (2 ^ 32 * Second)))
    with (now + ttl + (n * 2 ^ 32) * Second) by lia.
  replace (now + n * (2 ^ 32 * Second) + ttl)
    with (now + ttl + (n * 2 ^ 32) * Second) by lia.
  rewrite Z.div_add by done.
  by rewrite Z.mod_add.
Qed.

(** X15.  In every state reachable from a new cache, every expiration
    read through the index fits an unsigned 32-bit integer. *)
Theorem X15_index_exps_are_uint32 (S : SliceSorter) (m : mem) :
  reachable m → Forall (λ x, 0 <= x < 2 ^ 32) (index_exps m).
Proof.
  intros Hm.
  pose proof (exps_in_range_reachable m Hm) as Hrange.
  destruct (consistent_reachable m Hm) as [_ Hidx].
  unfold index_exps. apply Forall_fmap, Forall_forall.
  intros p Hp. rewrite Hidx in Hp.
  apply elem_of_store_refs in Hp as [k Hk]. by apply (Hrange k).
Qed.

Lemma X15_witness :
  Forall (λ x, 0 <= x < 2 ^ 32) (index_exps (@state_abc insertion_sorter)).
Proof.
  apply (X15_index_exps_are_uint32 insertion_sorter).
  apply reachable_run, reachable_fresh.
Defined.
